(** * tts-web: the selection state machine and synthesis lifecycle of [App.jsx]

    A shallow embedding of the stateful core of [src/App.jsx]: the React
    state cells of the [App] component, the catalog loader [load], the
    derived values [canGo] and [filteredVoices], the voice/engine default
    effect, and the asynchronous submit handler [synth].

    Modelling conventions.
    - A JavaScript string is the list of its UTF-16 code units, so that
      [.length] is [length] and [.trim()] can use the ECMAScript classes
      WhiteSpace and LineTerminator.
    - Every [useState] cell is a field of [State]; a setter [setX] is a
      function [State -> State].
    - An [await] splits a handler in two: the part that runs in the event
      and the continuation that runs when the promise settles.  The values
      the continuation reads from its render closure are kept in a
      [Closure].
    - [try]/[catch]/[finally] is an exception monad over [State].
    - The state updates of one event or one continuation are applied
      together, and the effects run on the state they leave (the batching
      of React 18).
    - The bodies of the two services are typed as section 6 of the design
      notes gives them; a property that may be absent is an [option]. *)

From Stdlib Require Import NArith ZArith Lia.
From stdpp Require Import base option list strings pretty gmap relations sorting.

Open Scope N_scope.

(** ** JavaScript strings *)

Abbreviation jsstring := (list N).

(** A string literal of the source (ASCII only). *)
Definition lit (s : string) : jsstring :=
  Ascii.N_of_ascii <$> String.list_ascii_of_string s.

(** ECMAScript WhiteSpace and LineTerminator code points, the characters
    [String.prototype.trim] strips.  All of them are in the BMP. *)
Definition isWhiteSpace (c : N) : bool :=
  (c =? 9) || (c =? 11) || (c =? 12) || (c =? 32) || (c =? 160)
  || (c =? 5760) || ((8192 <=? c) && (c <=? 8202)) || (c =? 8239)
  || (c =? 8287) || (c =? 12288) || (c =? 65279)
  || (c =? 10) || (c =? 13) || (c =? 8232) || (c =? 8233).

Fixpoint trimStart (s : jsstring) : jsstring :=
  match s with
  | [] => []
  | c :: s' => if isWhiteSpace c then trimStart s' else s
  end.

Definition trimEnd (s : jsstring) : jsstring :=
  reverse (trimStart (reverse s)).

Definition trim (s : jsstring) : jsstring := trimEnd (trimStart s).

(** [s.startsWith(p)] *)
Fixpoint startsWith (p s : jsstring) : bool :=
  match p, s with
  | [], _ => true
  | _ :: _, [] => false
  | a :: p', b :: s' => (a =? b) && startsWith p' s'
  end.

(** ** JavaScript values met by [&&], [||] and [!] in the source *)

Inductive jsval :=
| VBool (b : bool)
| VStr (s : jsstring).

Definition truthyStr (s : jsstring) : bool :=
  match s with [] => false | _ :: _ => true end.

Definition truthy (v : jsval) : bool :=
  match v with
  | VBool b => b
  | VStr s => truthyStr s
  end.

(** [a && b] *)
Definition js_and (a b : jsval) : jsval := if truthy a then b else a.

(** [a || b] on strings, where an absent property is [None]. *)
Definition js_or (a : option jsstring) (b : jsstring) : jsstring :=
  match a with
  | Some s => if truthyStr s then s else b
  | None => b
  end.

(** ** Data: the records the component holds *)

Module Voice.
Record t := mk {
  id : jsstring;
  languageCode : jsstring;
  languageName : jsstring;
  gender : option jsstring;
  supportedEngines : option (list jsstring);
}.
End Voice.

Module Language.
Record t := mk {
  code : jsstring;
  name : jsstring;
}.
End Language.

Module HistoryEntry.
Record t := mk {
  url : jsstring;
  voice : jsstring;
  ts : N;
  lang : jsstring;
  engine : jsstring;
}.
End HistoryEntry.

Inductive Tab := TabSynth | TabHistory | TabAbout.

Definition MAX_CHARS : nat := 3000.

(** The [useState] cells of [App]. *)
Record State := mkState {
  tab : Tab;
  voices : list Voice.t;
  languages : list Language.t;
  lang : jsstring;
  voice : jsstring;
  engine : jsstring;
  text : jsstring;
  busy : bool;
  error : jsstring;
  audioUrl : jsstring;
  history : list HistoryEntry.t;
}.

(** The state of the first render. *)
Definition initial : State :=
  mkState TabSynth [] [] [] [] [] [] false [] [] [].

Definition setTab (x : Tab) (s : State) : State :=
  mkState x (voices s) (languages s) (lang s) (voice s) (engine s)
          (text s) (busy s) (error s) (audioUrl s) (history s).
Definition setVoices (x : list Voice.t) (s : State) : State :=
  mkState (tab s) x (languages s) (lang s) (voice s) (engine s)
          (text s) (busy s) (error s) (audioUrl s) (history s).
Definition setLanguages (x : list Language.t) (s : State) : State :=
  mkState (tab s) (voices s) x (lang s) (voice s) (engine s)
          (text s) (busy s) (error s) (audioUrl s) (history s).
Definition setLang (x : jsstring) (s : State) : State :=
  mkState (tab s) (voices s) (languages s) x (voice s) (engine s)
          (text s) (busy s) (error s) (audioUrl s) (history s).
Definition setVoice (x : jsstring) (s : State) : State :=
  mkState (tab s) (voices s) (languages s) (lang s) x (engine s)
          (text s) (busy s) (error s) (audioUrl s) (history s).
Definition setEngine (x : jsstring) (s : State) : State :=
  mkState (tab s) (voices s) (languages s) (lang s) (voice s) x
          (text s) (busy s) (error s) (audioUrl s) (history s).
Definition setText (x : jsstring) (s : State) : State :=
  mkState (tab s) (voices s) (languages s) (lang s) (voice s) (engine s)
          x (busy s) (error s) (audioUrl s) (history s).
Definition setBusy (x : bool) (s : State) : State :=
  mkState (tab s) (voices s) (languages s) (lang s) (voice s) (engine s)
          (text s) x (error s) (audioUrl s) (history s).
Definition setError (x : jsstring) (s : State) : State :=
  mkState (tab s) (voices s) (languages s) (lang s) (voice s) (engine s)
          (text s) (busy s) x (audioUrl s) (history s).
Definition setAudioUrl (x : jsstring) (s : State) : State :=
  mkState (tab s) (voices s) (languages s) (lang s) (voice s) (engine s)
          (text s) (busy s) (error s) x (history s).
(** [setHistory(h => f h)]: the functional form of the setter. *)
Definition setHistory (f : list HistoryEntry.t → list HistoryEntry.t)
    (s : State) : State :=
  mkState (tab s) (voices s) (languages s) (lang s) (voice s) (engine s)
          (text s) (busy s) (error s) (audioUrl s) (f (history s)).

(** ** Derived values of a render (lines 25-27) *)

Definition chars (s : State) : nat := length (text s).
Definition over (s : State) : bool := bool_decide (MAX_CHARS < chars s)%nat.

(** [!busy && !over && text.trim()]: either [false] or the trimmed text. *)
Definition canGo (s : State) : jsval :=
  js_and (js_and (VBool (negb (busy s))) (VBool (negb (over s))))
         (VStr (trim (text s))).

(** ** Promises, exceptions and the effect monad *)

(** A thrown value; the handlers only read its [message]. *)
Record JsError := Error { message : jsstring }.

(** How a statement or an awaited promise completes. *)
Inductive completion (A : Type) :=
| Normal (a : A)
| Throw (e : JsError).
Arguments Normal {A} a.
Arguments Throw {A} e.

(** The [Response] of a settled [fetch]; [json] is how [r.json()] settles
    (it rejects on a body that is not JSON). *)
Record Response (B : Type) := mkResponse {
  ok : bool;
  status : N;
  json : completion B;
}.
Arguments mkResponse {B} ok status json.
Arguments ok {B} r.
Arguments status {B} r.
Arguments json {B} r.

(** How [fetch(...)] settles: it rejects on a transport failure. *)
Abbreviation fetched B := (completion (Response B)).

(** A computation over the state cells that may throw.  The state changes
    made before a throw are kept. *)
Definition Eff (A : Type) : Type := State → completion A * State.

Definition ret {A} (a : A) : Eff A := λ s, (Normal a, s).
Definition throw {A} (e : JsError) : Eff A := λ s, (Throw e, s).
Definition bind {A B} (m : Eff A) (k : A → Eff B) : Eff B :=
  λ s, match m s with
       | (Normal a, s') => k a s'
       | (Throw e, s') => (Throw e, s')
       end.
(** A state setter as a statement. *)
Definition call (f : State → State) : Eff unit := λ s, (Normal tt, f s).
(** [await p] on a settled promise. *)
Definition await {A} (p : completion A) : Eff A := λ s, (p, s).
(** [try { m } catch (e) { h e }] *)
Definition tryCatch {A} (m : Eff A) (h : JsError → Eff A) : Eff A :=
  λ s, match m s with
       | (Normal a, s') => (Normal a, s')
       | (Throw e, s') => h e s'
       end.
(** [try { m } finally { f }]: [f] runs on every exit of [m]; a throw of
    [f] replaces the completion of [m]. *)
Definition tryFinally {A} (m : Eff A) (f : Eff unit) : Eff A :=
  λ s, match m s with
       | (c, s') => match f s' with
                    | (Normal _, s'') => (c, s'')
                    | (Throw e, s'') => (Throw e, s'')
                    end
       end.

Declare Scope eff_scope.
Delimit Scope eff_scope with eff.
Notation "x <- m ;; k" := (bind m (λ x, k))
  (at level 100, m at next level, right associativity) : eff_scope.
Notation "m ;; k" := (bind m (λ _, k))
  (at level 100, right associativity) : eff_scope.

(** The state a computation leaves. *)
Definition exec {A} (m : Eff A) (s : State) : State := (m s).2.

(** ** The bodies of the two services (section 6 of the design notes) *)

Module VoicesBody.
(** [{ voices: [...] }]; [None] is a body without the property. *)
Record t := mk { voices : option (list Voice.t) }.
End VoicesBody.

Module SynthBody.
(** [{ url, error }]; [None] is a body without the property. *)
Record t := mk {
  url : option jsstring;
  error : option jsstring;
}.
End SynthBody.

(** ** The catalog loader (lines 30-59) *)

(** A [Map] keeps its keys in the order of their first insertion; [set]
    on a key that is present replaces the value in place. *)
Fixpoint map_set (k v : jsstring) (m : list (jsstring * jsstring))
    : list (jsstring * jsstring) :=
  match m with
  | [] => [(k, v)]
  | (k', v') :: m' =>
      if decide (k' = k) then (k, v) :: m' else (k', v') :: map_set k v m'
  end.

(** The [for (const v of arr)] loop over the map. *)
Definition languageMap (arr : list Voice.t) : list (jsstring * jsstring) :=
  foldl (λ map v,
           if negb (truthyStr (Voice.languageCode v)) then map
           else map_set (Voice.languageCode v)
                        (js_or (Some (Voice.languageName v))
                               (Voice.languageCode v)) map)
        [] arr.

(** [Array.prototype.sort] with a comparator is stable: insertion from the
    right, an element going before the first one it does not exceed. *)
Fixpoint sort_insert {A} (cmp : A → A → Z) (x : A) (l : list A) : list A :=
  match l with
  | [] => [x]
  | y :: l' => if (cmp x y <=? 0)%Z then x :: l else y :: sort_insert cmp x l'
  end.

Fixpoint sort {A} (cmp : A → A → Z) (l : list A) : list A :=
  match l with
  | [] => []
  | x :: l' => sort_insert cmp x (sort cmp l')
  end.

(** The fallback of the [catch] branch (lines 53-54). *)
Definition fallbackVoice : Voice.t :=
  Voice.mk (lit "Joanna") (lit "en-US") (lit "US English") None
           (Some [lit "standard"; lit "neural"]).
Definition fallbackLanguage : Language.t :=
  Language.mk (lit "en-US") (lit "US English").

Section Loader.

(** [a.localeCompare(b)] depends on the locale of the browser. *)
Variable localeCompare : jsstring → jsstring → Z.

Definition deriveLanguages (arr : list Voice.t) : list Language.t :=
  sort (λ a b, localeCompare (Language.name a) (Language.name b))
       ((λ '(code, name), Language.mk code name) <$> languageMap arr).

(** [langs.find(l => l.code.startsWith("en-")) || langs[0]], then
    [def?.code || ""]. *)
Definition defaultLang (langs : list Language.t) : jsstring :=
  let def :=
    match List.find (λ l, startsWith (lit "en-") (Language.code l)) langs with
    | Some l => Some l
    | None => langs !! 0%nat
    end in
  js_or (Language.code <$> def) [].

(** The continuation of [load] once [fetch] has settled with [o]. *)
Definition load (o : fetched VoicesBody.t) : Eff unit :=
  tryCatch
    (r <- await o ;;
     (if negb (ok r)
      then throw (Error (lit "HTTP " ++ lit (pretty (status r))))
      else ret tt) ;;
     d <- await (json r) ;;
     let arr := default [] (VoicesBody.voices d) in
     call (setVoices arr) ;;
     let langs := deriveLanguages arr in
     call (setLanguages langs) ;;
     call (setLang (defaultLang langs)))%eff
    (λ e,
       call (setError (lit "API not configured in this demo page.")) ;;
       call (setVoices [fallbackVoice]) ;;
       call (setLanguages [fallbackLanguage]) ;;
       call (setLang (lit "en-US")) ;;
       call (setVoice (lit "Joanna")))%eff.

End Loader.

(** ** Selection: the filtered voices and the default effect (lines 62-73) *)

Definition filteredVoices (s : State) : list Voice.t :=
  if negb (truthyStr (lang s)) then voices s
  else filter (λ v, Voice.languageCode v = lang s) (voices s).

(** [vs.find(v => v.id === id)] *)
Definition findVoice (id : jsstring) (vs : list Voice.t) : option Voice.t :=
  List.find (λ v, bool_decide (Voice.id v = id)) vs.

(** [v.supportedEngines?.includes("neural")] *)
Definition supportsNeural (v : Voice.t) : bool :=
  match Voice.supportedEngines v with
  | Some es => bool_decide (lit "neural" ∈ es)
  | None => false
  end.

(** One run of the effect.  The first branch is [filteredVoices.length]
    being [0]; in the second [v0] is [filteredVoices[0]]. *)
Definition voiceEffect (s : State) : State :=
  match filteredVoices s with
  | [] => s
  | v0 :: _ =>
      if negb (truthyStr (voice s))
         || negb (bool_decide (is_Some (findVoice (voice s) (filteredVoices s))))
      then setEngine (if supportsNeural v0 then lit "neural" else [])
                     (setVoice (Voice.id v0) s)
      else s
  end.

(** ** Helpers (lines 76-85, 109-110) *)

Definition sample (s : State) : jsstring :=
  let en := lit "Good morning and welcome to today" ++ [8217]
            ++ lit "s session." in
  let key := take 2 (lang s) in
  if decide (key = lit "en") then en
  else if decide (key = lit "fr") then
    lit "Bonjour et bienvenue " ++ [224] ++ lit " la session d" ++ [8217]
    ++ lit "aujourd" ++ [8217] ++ lit "hui."
  else if decide (key = lit "es") then
    lit "Buenos d" ++ [237] ++ lit "as y bienvenidos a la sesi" ++ [243]
    ++ lit "n de hoy."
  else if decide (key = lit "pt") then
    lit "Bom dia e bem-vindos " ++ [224] ++ lit " sess" ++ [227]
    ++ lit "o de hoje."
  else if decide (key = lit "de") then
    lit "Guten Morgen und willkommen zur heutigen Sitzung."
  else en.

Definition insertSample (s : State) : State := setText (sample s) s.
Definition clearAll (s : State) : State :=
  setError [] (setAudioUrl [] (setText [] s)).

(** ** The submit handler [synth] (lines 87-107) *)

(** What the continuation of [synth] reads from the render it was created
    in. *)
Record Closure := mkClosure {
  c_text : jsstring;
  c_voice : jsstring;
  c_lang : jsstring;
  c_engine : jsstring;
}.

Definition closureOf (s : State) : Closure :=
  mkClosure (text s) (voice s) (lang s) (engine s).

(** Lines 92-93: the object given to [JSON.stringify]. *)
Definition payload (c : Closure) : gmap string jsstring :=
  let payload : gmap string jsstring :=
    {[ "text" := c_text c; "voice" := c_voice c ]} in
  if truthyStr (c_engine c) then <["engine" := c_engine c]> payload
  else payload.

(** A [POST] to [path] under the service base. *)
Record Request := mkRequest {
  path : jsstring;
  body : gmap string jsstring;
}.

(** The part of [synth] that runs in the submit event, up to the [fetch].
    [None] is the early [return]: no request is made. *)
Definition synth (s : State) : State * option Request :=
  if negb (truthy (canGo s)) then (s, None)
  else (setAudioUrl [] (setError [] (setBusy true s)),
        Some (mkRequest (lit "/synthesize") (payload (closureOf s)))).

(** Line 101: the updater given to [setHistory]. *)
Definition pushHistory (e : HistoryEntry.t) (h : list HistoryEntry.t)
    : list HistoryEntry.t :=
  take 6 (e :: h).

(** The rest of [synth], from the settled [fetch] on; [now] is
    [Date.now()]. *)
Definition synthSettled (c : Closure) (now : N) (o : fetched SynthBody.t)
    : Eff unit :=
  tryFinally
    (tryCatch
       (r <- await o ;;
        d <- await (json r) ;;
        match SynthBody.url d with
        | Some u =>
            if negb (ok r) || negb (truthyStr u)
            then throw (Error (js_or (SynthBody.error d)
                                     (lit "Synthesis failed")))
            else
              call (setAudioUrl u) ;;
              call (setHistory (pushHistory
                     (HistoryEntry.mk u (c_voice c) now (c_lang c)
                                      (c_engine c))))
        | None =>
            throw (Error (js_or (SynthBody.error d)
                                (lit "Synthesis failed")))
        end)%eff
       (λ err,
          call (setError (js_or (Some (message err))
                                (lit "Failed to synthesize")))))
    (call (setBusy false)).

(** ** The component as a transition system

    Besides the state cells, the world holds what is in flight: whether
    [load] is still waiting for its [fetch], and the closures of the
    [synth] calls that wait for theirs. *)

Record World := mkWorld {
  st : State;
  loading : bool;
  inflight : list Closure;
}.

(** After mount: [load()] has been called, the default effect has run on
    [initial] (where it does nothing). *)
Definition start : World := mkWorld initial true [].

(** The default effect has [lang], [filteredVoices] and [voice] as
    dependencies: after an event that set [lang] or [voice] it runs when
    the value has changed. *)
Definition rerender (old new : State) : State :=
  if decide (lang new = lang old ∧ voice new = voice old) then new
  else voiceEffect new.

Section Machine.

Variable localeCompare : jsstring → jsstring → Z.

Inductive step : World → World → Prop :=
| step_load o w :
    loading w = true →
    step w (mkWorld (voiceEffect (exec (load localeCompare o) (st w)))
                    false (inflight w))
| step_lang l w :
    (* an option of the language select *)
    l ∈ languages (st w) →
    step w (mkWorld (rerender (st w) (setLang (Language.code l) (st w)))
                    (loading w) (inflight w))
| step_voice v w :
    (* an option of the voice select *)
    v ∈ filteredVoices (st w) →
    step w (mkWorld (rerender (st w) (setVoice (Voice.id v) (st w)))
                    (loading w) (inflight w))
| step_engine_standard w :
    step w (mkWorld (setEngine [] (st w)) (loading w) (inflight w))
| step_engine_neural v w :
    (* the option is rendered only for a voice that supports it *)
    findVoice (voice (st w)) (filteredVoices (st w)) = Some v →
    supportsNeural v = true →
    step w (mkWorld (setEngine (lit "neural") (st w))
                    (loading w) (inflight w))
| step_text t w :
    step w (mkWorld (setText t (st w)) (loading w) (inflight w))
| step_sample w :
    step w (mkWorld (insertSample (st w)) (loading w) (inflight w))
| step_clear w :
    step w (mkWorld (clearAll (st w)) (loading w) (inflight w))
| step_tab t w :
    step w (mkWorld (setTab t (st w)) (loading w) (inflight w))
| step_submit w :
    step w (mkWorld (synth (st w)).1 (loading w)
                    (match (synth (st w)).2 with
                     | Some _ => inflight w ++ [closureOf (st w)]
                     | None => inflight w
                     end))
| step_settled c now o w before after :
    inflight w = before ++ c :: after →
    step w (mkWorld (exec (synthSettled c now o) (st w))
                    (loading w) (before ++ after)).

Definition reachable (w : World) : Prop := rtc step start w.

End Machine.

(** ** The properties of the design notes, as predicates *)

(** P2: [engine] is ["neural"] only for a selected voice that supports
    it. *)
Definition engineValid (s : State) : Prop :=
  engine s = lit "neural" →
  ∃ v, findVoice (voice s) (voices s) = Some v ∧ supportsNeural v = true.

(** What holds in every world the component can be in: the ledger is
    bounded, at most one [synth] waits for its [fetch], and [busy] is set
    exactly while one does. *)
Definition worldInv (w : World) : Prop :=
  (length (history (st w)) ≤ 6)%nat
  ∧ (length (inflight w) ≤ 1)%nat
  ∧ (busy (st w) = true ↔ inflight w ≠ []).

(** The ways the catalog load fails: [fetch] rejects (transport failure),
    the status is not a success, or [r.json()] rejects (the body is not
    JSON). *)
Definition loadFails (o : fetched VoicesBody.t) : bool :=
  match o with
  | Throw _ => true
  | Normal r =>
      negb (ok r)
      || match json r with Throw _ => true | Normal _ => false end
  end.

(** ** What the render shows of the state (lines 143-159, 175) *)

(** The values of the options of the language select. *)
Definition languageOptions (s : State) : list jsstring :=
  Language.code <$> languages s.

(** The values of the options of the voice select. *)
Definition voiceOptions (s : State) : list jsstring :=
  Voice.id <$> filteredVoices s.

(** [filteredVoices.find(v=>v.id===voice)?.supportedEngines
    ?.includes("neural")]: whether the neural option is rendered. *)
Definition neuralOffered (s : State) : bool :=
  match findVoice (voice s) (filteredVoices s) with
  | Some v => supportsNeural v
  | None => false
  end.

(** The values of the options of the engine select. *)
Definition engineOptions (s : State) : list jsstring :=
  [] :: (if neuralOffered s then [lit "neural"] else []).

(** [disabled={!canGo || busy}] on the Generate button. *)
Definition generateDisabled (s : State) : bool :=
  negb (truthy (canGo s)) || busy s.

(** ** Invariants of the selection *)

(** Every language of the select has a non-empty code and a voice in the
    catalog, and the selected language is none or one of them. *)
Definition catalogInv (s : State) : Prop :=
  (∀ l, l ∈ languages s →
        Language.code l ≠ []
        ∧ ∃ v, v ∈ voices s ∧ Voice.languageCode v = Language.code l)
  ∧ (lang s = [] ∨ lang s ∈ languageOptions s).

(** When the voice select has options, the selected voice is one of
    them. *)
Definition selectionInv (s : State) : Prop :=
  filteredVoices s ≠ [] →
  ∃ v, v ∈ filteredVoices s ∧ Voice.id v = voice s.

(** The two values of the engine cell. *)
Definition engineOk (e : jsstring) : Prop := e = [] ∨ e = lit "neural".

(** The engine of the state, of the requests in flight and of the clips
    is one of the two values, and every clip has a url. *)
Definition engineInv (w : World) : Prop :=
  engineOk (engine (st w))
  ∧ Forall (λ c, engineOk (c_engine c)) (inflight w)
  ∧ Forall (λ h, engineOk (HistoryEntry.engine h)
                 ∧ HistoryEntry.url h ≠ []) (history (st w)).

(** Until [load] settles there is no catalog and no selection. *)
Definition loadingInv (w : World) : Prop :=
  loading w = true →
  voices (st w) = [] ∧ languages (st w) = [] ∧ lang (st w) = []
  ∧ voice (st w) = [] ∧ engine (st w) = [].

Definition uiInv (w : World) : Prop :=
  catalogInv (st w) ∧ selectionInv (st w) ∧ engineInv w ∧ loadingInv w.

(** ** The order of messages as the design notes word it

    "Prefer a message supplied by the service response, else a generic
    synthesis failed message, else the transport error's own message":
    the first that is present, in that order.  These definitions follow
    the words of the notes, not the code; the code is [synthSettled]. *)

(** The answers line 99 does not let through, and the rejections. *)
Definition submissionFails (o : fetched SynthBody.t) : bool :=
  match o with
  | Throw _ => true
  | Normal r =>
      match json r with
      | Throw _ => true
      | Normal d => negb (ok r && truthyStr (default [] (SynthBody.url d)))
      end
  end.

(** The error string of the response body, when the body was read and has
    a non-empty one. *)
Definition bodyError (o : fetched SynthBody.t) : option jsstring :=
  match o with
  | Throw _ => None
  | Normal r =>
      match json r with
      | Throw _ => None
      | Normal d =>
          match SynthBody.error d with
          | Some (m0 :: m) => Some (m0 :: m)
          | _ => None
          end
      end
  end.

(** The own message of the error [fetch] or [r.json()] rejected with. *)
Definition thrownMessage (o : fetched SynthBody.t) : option jsstring :=
  match o with
  | Throw e => Some (message e)
  | Normal r =>
      match json r with
      | Throw e => Some (message e)
      | Normal _ => None
      end
  end.

Definition statedMessage (generic : jsstring) (o : fetched SynthBody.t)
    : jsstring :=
  default [] (head (omap id [bodyError o; Some generic; thrownMessage o])).

(** ** Catalogs, states and comparisons used in the examples *)

(** A comparison by code units, standing for [localeCompare] where an
    example needs a concrete one. *)
Fixpoint compareUnits (a b : jsstring) : Z :=
  match a, b with
  | [], [] => 0%Z
  | [], _ :: _ => (-1)%Z
  | _ :: _, [] => 1%Z
  | x :: a', y :: b' =>
      if x <? y then (-1)%Z else if y <? x then 1%Z else compareUnits a' b'
  end.

(** The state after a catalog of Joanna alone has been loaded and
    selected. *)
Definition joannaSelected : State :=
  setEngine (lit "neural")
    (setVoice (lit "Joanna")
       (setLang (lit "en-US")
          (setLanguages [fallbackLanguage]
             (setVoices [fallbackVoice] initial)))).

(** A catalog with two voices of one language, the second without the
    neural engine. *)
Definition ivy : Voice.t :=
  Voice.mk (lit "Ivy") (lit "en-US") (lit "US English") None
           (Some [lit "standard"]).

Definition twoVoices : fetched VoicesBody.t :=
  Normal (mkResponse true 200
            (Normal (VoicesBody.mk (Some [fallbackVoice; ivy])))).

(** A catalog with an English and a French voice. *)
Definition celine : Voice.t :=
  Voice.mk (lit "Celine") (lit "fr-FR") (lit "French") None
           (Some [lit "standard"]).


(** The world after the catalog [twoVoices] has been loaded. *)
Definition loadedWorld : World :=
  mkWorld (voiceEffect (exec (load compareUnits twoVoices) (st start)))
          false (inflight start).


(** A text of [MAX_CHARS] letters [a]. *)
Definition longText : jsstring := replicate MAX_CHARS 97.

(** * Properties *)

(** ** Strings *)

Lemma trimStart_nil (s : jsstring) :
  trimStart s = [] ↔ Forall (λ c, isWhiteSpace c = true) s.
Proof.
  induction s as [|c s IH]; simpl.
  - split; [constructor | done].
  - destruct (isWhiteSpace c) eqn:Hc.
    + rewrite IH. split; [by constructor | by inversion 1].
    + split; [done | inversion 1; congruence].
Qed.

Lemma trimStart_Forall (s : jsstring) :
  Forall (λ c, isWhiteSpace c = true) (trimStart s)
  ↔ Forall (λ c, isWhiteSpace c = true) s.
Proof.
  induction s as [|c s IH]; simpl; [done|].
  destruct (isWhiteSpace c) eqn:Hc; [|done].
  rewrite IH. split; [by constructor | by inversion 1].
Qed.

Lemma trimEnd_nil (s : jsstring) :
  trimEnd s = [] ↔ Forall (λ c, isWhiteSpace c = true) s.
Proof.
  unfold trimEnd. rewrite <- (Forall_reverse _ s), <- trimStart_nil.
  split; intros H.
  - apply (f_equal reverse) in H. by rewrite reverse_involutive in H.
  - by rewrite H.
Qed.

(** [text.trim()] is empty exactly for a text of white space only. *)
Lemma trim_nil (s : jsstring) :
  trim s = [] ↔ Forall (λ c, isWhiteSpace c = true) s.
Proof. unfold trim. by rewrite trimEnd_nil, trimStart_Forall. Qed.

Lemma trim_nonempty (s : jsstring) :
  trim s ≠ [] ↔ ∃ c, c ∈ s ∧ isWhiteSpace c = false.
Proof.
  rewrite trim_nil. split.
  - intros H. apply not_Forall_Exists in H; [|intros c; apply _].
    apply Exists_exists in H as (c & Hin & Hc). exists c. split; [done|].
    by apply not_true_is_false.
  - intros (c & Hin & Hc) H. rewrite Forall_forall in H.
    specialize (H c Hin). congruence.
Qed.

Lemma truthyStr_true (s : jsstring) : truthyStr s = true ↔ s ≠ [].
Proof. by destruct s. Qed.

Lemma truthyStr_false (s : jsstring) : truthyStr s = false ↔ s = [].
Proof. by destruct s. Qed.

(** ** Submit gating *)

Lemma canGo_truthy (s : State) :
  truthy (canGo s) = true
  ↔ busy s = false ∧ (chars s ≤ MAX_CHARS)%nat ∧ trim (text s) ≠ [].
Proof.
  unfold canGo, js_and, over. simpl.
  destruct (busy s); simpl.
  - split; [done | by intros [? _]].
  - case_bool_decide as Hover; simpl.
    + split; [done | lia].
    + rewrite truthyStr_true.
      split; [intros ?; repeat split; [lia | done] | by intros (_ & _ & ?)].
Qed.

(** The gate does not read the selection. *)
Lemma canGo_selection (s : State) (l v e : jsstring) :
  canGo (setLang l s) = canGo s ∧ canGo (setVoice v s) = canGo s
  ∧ canGo (setEngine e s) = canGo s.
Proof. done. Qed.

(** C1, as the code has it: [canGo] is truthy if and only if the
    controller is not busy, the text has at most [MAX_CHARS] characters and
    the trimmed text is not empty.  The selected voice is not part of the
    gate: changing it never changes [canGo]. *)
Theorem canGo_gate (s : State) :
  (truthy (canGo s) = true
   ↔ busy s = false ∧ (length (text s) ≤ MAX_CHARS)%nat
     ∧ trim (text s) ≠ [])
  ∧ (∀ v, canGo (setVoice v s) = canGo s).
Proof.
  split; [apply canGo_truthy|]. intros v. apply (canGo_selection s [] v []).
Qed.

(** C1 as stated fails: with the text ["a"] and no voice selected the gate
    is open. *)
Lemma canGo_gate_no_voice_counterexample :
  ¬ (∀ s : State,
       truthy (canGo s) = true
       ↔ busy s = false ∧ (length (text s) ≤ MAX_CHARS)%nat
         ∧ trim (text s) ≠ [] ∧ voice s ≠ []).
Proof.
  intros H. destruct (H (setText (lit "a") initial)) as [H1 _].
  destruct H1 as (_ & _ & _ & Hv); [reflexivity|]. by apply Hv.
Qed.

(** C9: with a text of exactly [MAX_CHARS] characters that is not all
    white space, a voice selected and no submission in flight, the gate is
    open and [synth] makes its request to the synthesis endpoint; with
    [MAX_CHARS + 1] characters the gate is closed and [synth] returns at its
    guard: the state is unchanged and no request is made. *)
Theorem submit_at_limit (s : State) :
  (busy s = false → voice s ≠ [] → length (text s) = MAX_CHARS →
   (∃ c, c ∈ text s ∧ isWhiteSpace c = false) →
   truthy (canGo s) = true
   ∧ ∃ s', synth s = (s', Some (mkRequest (lit "/synthesize")
                                          (payload (closureOf s)))))
  ∧ (length (text s) = S MAX_CHARS →
     truthy (canGo s) = false ∧ synth s = (s, None)).
Proof.
  split.
  - intros Hb _ Hlen Hns.
    assert (truthy (canGo s) = true) as Hgo.
    { apply canGo_truthy. unfold chars. rewrite Hlen.
      split_and!; [done | lia | by apply trim_nonempty]. }
    split; [done|]. unfold synth. rewrite Hgo. simpl. eauto.
  - intros Hlen.
    assert (truthy (canGo s) = false) as Hgo.
    { apply not_true_is_false. rewrite canGo_truthy. unfold chars. lia. }
    split; [done|]. unfold synth. by rewrite Hgo.
Qed.

(** C10: while no language is selected the filter is off, and the default
    effect takes the first voice of the whole catalog, whatever its
    language, when no voice is selected or the selected one is not in the
    catalog. *)
Theorem filteredVoices_without_lang (s : State) :
  lang s = [] →
  filteredVoices s = voices s
  ∧ (∀ v0 rest,
       voices s = v0 :: rest →
       voice s = [] ∨ findVoice (voice s) (voices s) = None →
       voice (voiceEffect s) = Voice.id v0
       ∧ engine (voiceEffect s)
         = (if supportsNeural v0 then lit "neural" else [])).
Proof.
  intros Hl.
  assert (filteredVoices s = voices s) as Hf
    by (unfold filteredVoices; by rewrite Hl).
  split; [done|]. intros v0 rest Hv Hsel.
  unfold voiceEffect. rewrite Hf, Hv.
  destruct Hsel as [-> | Hnone]; simpl; [done|].
  rewrite Hv in Hnone. simpl in Hnone. rewrite Hnone.
  rewrite bool_decide_eq_false_2 by (by intros [? ?]).
  by rewrite orb_true_r.
Qed.

(** ** The request payload *)

Lemma payload_lookup (c : Closure) :
  payload c !! "text" = Some (c_text c)
  ∧ payload c !! "voice" = Some (c_voice c)
  ∧ payload c !! "engine"
    = (if truthyStr (c_engine c) then Some (c_engine c) else None).
Proof. unfold payload. destruct (truthyStr (c_engine c)); by simplify_map_eq. Qed.

Lemma payload_dom (c : Closure) :
  dom (payload c)
  = (if truthyStr (c_engine c) then {["text"; "voice"; "engine"]}
     else {["text"; "voice"]} : gset string).
Proof.
  unfold payload. destruct (truthyStr (c_engine c));
    rewrite ?dom_insert_L, dom_singleton_L; set_solver.
Qed.

(** C8: the body of every request [synth] makes has the keys [text] and
    [voice], holding the text and the selected voice; with the empty engine
    these are its only keys, and it has the key [engine], holding the
    selected engine, exactly when that engine is not the empty string.  The
    empty string is never sent as the engine. *)
Theorem payload_engine_key (s s' : State) (r : Request) :
  synth s = (s', Some r) →
  body r !! "text" = Some (text s) ∧ body r !! "voice" = Some (voice s)
  ∧ (engine s = [] →
     dom (body r) = ({["text"; "voice"]} : gset string)
     ∧ body r !! "engine" = None)
  ∧ (engine s ≠ [] →
     dom (body r) = ({["text"; "voice"; "engine"]} : gset string)
     ∧ body r !! "engine" = Some (engine s))
  ∧ body r !! "engine" ≠ Some [].
Proof.
  unfold synth. destruct (truthy (canGo s)); simpl; [|done].
  intros [= <- <-]. simpl.
  pose proof (payload_lookup (closureOf s)) as (Ht & Hv & He).
  pose proof (payload_dom (closureOf s)) as Hd. simpl in *.
  split_and!; try done.
  - intros Hnil. rewrite Hnil in *. done.
  - intros Hne. apply truthyStr_true in Hne. rewrite Hne in *. done.
  - rewrite He. destruct (engine s); simpl; done.
Qed.

(** ** What the effect, the loader and [synth] leave alone *)

Lemma voiceEffect_frame (s : State) :
  let s' := voiceEffect s in
  voices s' = voices s ∧ languages s' = languages s ∧ lang s' = lang s
  ∧ text s' = text s ∧ busy s' = busy s ∧ error s' = error s
  ∧ audioUrl s' = audioUrl s ∧ history s' = history s.
Proof.
  unfold voiceEffect. destruct (filteredVoices s) as [|v0 vs]; [done|].
  by destruct (_ || _).
Qed.

Lemma rerender_frame (old s : State) :
  let s' := rerender old s in
  voices s' = voices s ∧ languages s' = languages s ∧ lang s' = lang s
  ∧ text s' = text s ∧ busy s' = busy s ∧ error s' = error s
  ∧ audioUrl s' = audioUrl s ∧ history s' = history s.
Proof.
  unfold rerender. case_decide; [done | apply voiceEffect_frame].
Qed.

(** Every path through [load]. *)
Lemma load_exec lc (o : fetched VoicesBody.t) (s : State) :
  exec (load lc o) s =
  match o with
  | Normal (mkResponse true _ (Normal d)) =>
      let arr := default [] (VoicesBody.voices d) in
      let langs := deriveLanguages lc arr in
      setLang (defaultLang langs) (setLanguages langs (setVoices arr s))
  | _ =>
      setVoice (lit "Joanna")
        (setLang (lit "en-US")
           (setLanguages [fallbackLanguage]
              (setVoices [fallbackVoice]
                 (setError (lit "API not configured in this demo page.")
                    s))))
  end.
Proof.
  destruct o as [[[] st [d|e]]|e]; reflexivity.
Qed.

Lemma load_frame lc (o : fetched VoicesBody.t) (s : State) :
  let s' := exec (load lc o) s in
  text s' = text s ∧ busy s' = busy s ∧ engine s' = engine s
  ∧ audioUrl s' = audioUrl s ∧ history s' = history s.
Proof.
  simpl. rewrite load_exec. by destruct o as [[[] st [d|e]]|e].
Qed.

(** The message of the [Error] thrown at line 99 is never empty. *)
Lemma serviceMessage_truthy (e : option jsstring) :
  truthyStr (js_or e (lit "Synthesis failed")) = true.
Proof. destruct e as [[|c e]|]; reflexivity. Qed.

(** Every path through the continuation of [synth]. *)
Lemma synthSettled_exec (c : Closure) (now : N) (o : fetched SynthBody.t)
    (s : State) :
  exec (synthSettled c now o) s =
  match o with
  | Throw e =>
      setBusy false
        (setError (js_or (Some (message e)) (lit "Failed to synthesize")) s)
  | Normal r =>
      match json r with
      | Throw e =>
          setBusy false
            (setError (js_or (Some (message e)) (lit "Failed to synthesize"))
                      s)
      | Normal d =>
          if ok r && truthyStr (default [] (SynthBody.url d)) then
            let u := default [] (SynthBody.url d) in
            setBusy false
              (setHistory
                 (pushHistory (HistoryEntry.mk u (c_voice c) now (c_lang c)
                                               (c_engine c)))
                 (setAudioUrl u s))
          else
            setBusy false
              (setError (js_or (SynthBody.error d) (lit "Synthesis failed"))
                        s)
      end
  end.
Proof.
  destruct o as [[[] st [[[[|cu u]|] [[|ce e]|]]|e']]|e']; reflexivity.
Qed.

(** ** The history ledger and the busy flag *)

Lemma pushHistory_length (e : HistoryEntry.t) (h : list HistoryEntry.t) :
  (length (pushHistory e h) ≤ 6)%nat.
Proof. unfold pushHistory. rewrite length_take. lia. Qed.

Lemma pushHistory_head (e : HistoryEntry.t) (h : list HistoryEntry.t) :
  pushHistory e h !! 0%nat = Some e.
Proof. reflexivity. Qed.

Lemma synthSettled_busy (c : Closure) (now : N) (o : fetched SynthBody.t)
    (s : State) :
  busy (exec (synthSettled c now o) s) = false.
Proof.
  rewrite synthSettled_exec.
  destruct o as [r|e]; [|done]. destruct (json r) as [d|e]; [|done].
  by destruct (_ && _).
Qed.

Lemma synthSettled_history_length (c : Closure) (now : N)
    (o : fetched SynthBody.t) (s : State) :
  (length (history s) ≤ 6)%nat →
  (length (history (exec (synthSettled c now o) s)) ≤ 6)%nat.
Proof.
  intros Hlen. rewrite synthSettled_exec.
  destruct o as [r|e]; [|done]. destruct (json r) as [d|e]; [|done].
  destruct (_ && _); [apply pushHistory_length | done].
Qed.

Lemma start_worldInv : worldInv start.
Proof. unfold worldInv. simpl. split_and!; [lia | lia | done]. Qed.

Lemma step_worldInv lc (w w' : World) :
  step lc w w' → worldInv w → worldInv w'.
Proof.
  unfold worldInv. intros Hstep (Hh & Hn & Hb).
  destruct Hstep as [o w Hl|l w Hin|v w Hin|w|v w Hf Hsup|t w|w|w|t w|w
                    |c now o w before after Hfl]; simpl.
  - pose proof (voiceEffect_frame (exec (load lc o) (st w))) as F.
    pose proof (load_frame lc o (st w)) as G. simpl in F, G.
    destruct F as (_ & _ & _ & _ & -> & _ & _ & ->).
    by destruct G as (_ & -> & _ & _ & ->).
  - pose proof (rerender_frame (st w) (setLang (Language.code l) (st w))) as F.
    simpl in F. by destruct F as (_ & _ & _ & _ & -> & _ & _ & ->).
  - pose proof (rerender_frame (st w) (setVoice (Voice.id v) (st w))) as F.
    simpl in F. by destruct F as (_ & _ & _ & _ & -> & _ & _ & ->).
  - done.
  - done.
  - done.
  - done.
  - done.
  - done.
  - unfold synth. destruct (truthy (canGo (st w))) eqn:Hgo; simpl; [|done].
    apply canGo_truthy in Hgo as (Hidle & _ & _).
    destruct (inflight w) as [|c cs]; simpl.
    + split_and!; [done | lia | done].
    + assert (busy (st w) = true) by (by apply Hb). congruence.
  - rewrite synthSettled_busy. rewrite Hfl in Hn.
    rewrite length_app in Hn. simpl in Hn.
    destruct before, after; simpl in Hn; try lia. simpl.
    split_and!; [by apply synthSettled_history_length | lia | done].
Qed.

Lemma reachable_worldInv lc (w : World) : reachable lc w → worldInv w.
Proof.
  unfold reachable. intros Hr.
  eapply (rtc_ind_r (λ w, worldInv w)); [apply start_worldInv | | exact Hr].
  intros w1 w2 _ Hstep IH. by eapply step_worldInv.
Qed.

(** C4: a successful synthesis (a success status and a body with a
    non-empty url) leaves as history the new entry put in front of the old
    history and cut to its first 6 elements, so the new entry is
    [history[0]] and the length is at most 6; and in every world the
    component can reach, whatever was synthesized before, the history has
    at most 6 entries. *)
Theorem history_push_bound lc :
  (∀ (s : State) (c : Closure) (now status u0 : N) (u : jsstring) err,
     let url := u0 :: u in
     let e := HistoryEntry.mk url (c_voice c) now (c_lang c) (c_engine c) in
     let o := Normal (mkResponse true status
                        (Normal (SynthBody.mk (Some url) err))) in
     let s' := exec (synthSettled c now o) s in
     history s' = take 6 (e :: history s)
     ∧ history s' !! 0%nat = Some e
     ∧ (length (history s') ≤ 6)%nat)
  ∧ (∀ w, reachable lc w → (length (history (st w)) ≤ 6)%nat).
Proof.
  split.
  - intros s c now status u0 u err url e o s'.
    assert (history s' = pushHistory e (history s)) as ->.
    { unfold s'. by rewrite synthSettled_exec. }
    split_and!; [done | apply pushHistory_head | apply pushHistory_length].
  - intros w Hr. by destruct (reachable_worldInv lc w Hr) as (? & _).
Qed.

(** C5: however the submission settles, a rejected [fetch], a body that is
    not JSON, a non-success status, a body without url or a success, the
    continuation of [synth] leaves [busy] false.  In every reachable world
    [busy] is true only while a request is in flight, and at most one
    is. *)
Theorem busy_cleared lc :
  (∀ (c : Closure) (now : N) (o : fetched SynthBody.t) (s : State),
     busy (exec (synthSettled c now o) s) = false)
  ∧ (∀ w, reachable lc w →
       (busy (st w) = true ↔ inflight w ≠ [])
       ∧ (length (inflight w) ≤ 1)%nat).
Proof.
  split; [apply synthSettled_busy|].
  intros w Hr. by destruct (reachable_worldInv lc w Hr) as (_ & ? & ?).
Qed.

(** C7, as the code has it: after a failed submission the displayed error
    is the message of the error that reached the [catch].  When [fetch] or
    [r.json()] rejects (whatever the status) it is the own message of that
    error, or ["Failed to synthesize"] when that message is empty; when the
    body was read and the status is not a success or the url is missing, it
    is the error string of the body if it has a non-empty one, else
    ["Synthesis failed"].  The history is unchanged by a failure, and a
    success leaves the error as it was.  A status 500 with the body
    [{error: "quota exceeded"}] displays ["quota exceeded"], leaves the
    history as it was and clears [busy]. *)
Theorem synth_failure_message (c : Closure) (now : N) (s : State)
    (o : fetched SynthBody.t) :
  let s' := exec (synthSettled c now o) s in
  let thrown (e : JsError) :=
    match message e with
    | [] => lit "Failed to synthesize"
    | m0 :: m => m0 :: m
    end in
  match o with
  | Throw e => error s' = thrown e ∧ history s' = history s
  | Normal r =>
      match json r with
      | Throw e => error s' = thrown e ∧ history s' = history s
      | Normal d =>
          if ok r && truthyStr (default [] (SynthBody.url d))
          then error s' = error s
          else error s' = match SynthBody.error d with
                          | Some (m0 :: m) => m0 :: m
                          | _ => lit "Synthesis failed"
                          end
               ∧ history s' = history s
      end
  end
  ∧ (let o500 := Normal (mkResponse false 500
                           (Normal (SynthBody.mk None
                                      (Some (lit "quota exceeded"))))) in
     let s500 := exec (synthSettled c now o500) s in
     error s500 = lit "quota exceeded" ∧ history s500 = history s
     ∧ busy s500 = false).
Proof.
  intros s' thrown. split; [|done]. unfold s'. rewrite synthSettled_exec.
  assert (∀ e, js_or (Some (message e)) (lit "Failed to synthesize")
               = thrown e) as Hthrown.
  { intros e. unfold js_or, thrown. by destruct (message e). }
  destruct o as [r|e]; [|by rewrite Hthrown].
  destruct (json r) as [d|e]; [|by rewrite Hthrown].
  destruct (ok r && _); [done|].
  by destruct (SynthBody.error d) as [[|m0 m]|].
Qed.

(** C7 as stated fails: a status 500 whose body is not JSON has no error
    string and displays the parser's own message, not the generic one that
    comes before it in the stated order, whichever way the generic text is
    capitalised. *)
Lemma synth_failure_message_counterexample :
  ¬ (∀ c now s o,
       submissionFails o = true →
       error (exec (synthSettled c now o) s)
       = statedMessage (lit "synthesis failed") o)
  ∧ ¬ (∀ c now s o,
         submissionFails o = true →
         error (exec (synthSettled c now o) s)
         = statedMessage (lit "Synthesis failed") o).
Proof.
  split; intros H;
    specialize (H (closureOf initial) 0 initial
                  (Normal (mkResponse false 500
                             (Throw (Error (lit "Unexpected token <")))))
                  eq_refl);
    discriminate H.
Qed.

(** ** The catalog loader's failure path *)

(** C6, as the code has it: when the catalog load fails, the loader sets
    the fixed message ["API not configured in this demo page."], replaces
    the catalog by the single voice Joanna (en-US, US English, engines
    standard and neural) and the single language en-US / US English, and
    selects en-US and Joanna; the default effect then changes nothing. *)
Theorem load_fallback lc (o : fetched VoicesBody.t) (s : State) :
  loadFails o = true →
  let s' := exec (load lc o) s in
  error s' = lit "API not configured in this demo page."
  ∧ voices s' = [Voice.mk (lit "Joanna") (lit "en-US") (lit "US English")
                          None (Some [lit "standard"; lit "neural"])]
  ∧ languages s' = [Language.mk (lit "en-US") (lit "US English")]
  ∧ lang s' = lit "en-US" ∧ voice s' = lit "Joanna"
  ∧ voiceEffect s' = s'.
Proof.
  intros Hf s'. unfold s'. rewrite load_exec.
  destruct o as [[[] status [d|e]]|e]; try discriminate Hf;
    by split_and!.
Qed.

(** C6 as stated fails on the text of the message: a rejected [fetch]
    does not set ["remote service unavailable"]. *)
Lemma load_fallback_message_counterexample :
  ¬ (∀ lc (o : fetched VoicesBody.t) (s : State),
       loadFails o = true →
       let s' := exec (load lc o) s in
       error s' = lit "remote service unavailable"
       ∧ voices s' = [Voice.mk (lit "Joanna") (lit "en-US")
                               (lit "US English") None
                               (Some [lit "standard"; lit "neural"])]
       ∧ languages s' = [Language.mk (lit "en-US") (lit "US English")]
       ∧ lang s' = lit "en-US" ∧ voice s' = lit "Joanna").
Proof.
  intros H.
  destruct (H (λ _ _, 0%Z) (Throw (Error (lit "Failed to fetch"))) initial)
    as [He _]; [reflexivity|].
  discriminate He.
Qed.

(** ** Selection *)

Lemma findVoice_Some (id : jsstring) (vs : list Voice.t) (v : Voice.t) :
  findVoice id vs = Some v → v ∈ vs ∧ Voice.id v = id.
Proof.
  unfold findVoice. intros H. apply find_some in H as [Hin Hid].
  split; [by apply list_elem_of_In | by apply bool_decide_eq_true in Hid].
Qed.

Lemma filteredVoices_lang (s : State) (v : Voice.t) :
  lang s ≠ [] →
  v ∈ filteredVoices s ↔ v ∈ voices s ∧ Voice.languageCode v = lang s.
Proof.
  intros Hl. unfold filteredVoices.
  apply truthyStr_true in Hl. rewrite Hl. simpl.
  rewrite list_elem_of_filter. split; intros [? ?]; by split.
Qed.

(** X18: the effect settles in one run: running it twice gives the state
    of running it once. *)
Lemma voiceEffect_idempotent (s : State) :
  voiceEffect (voiceEffect s) = voiceEffect s.
Proof.
  unfold voiceEffect at 2 3.
  destruct (filteredVoices s) as [|v0 vs] eqn:Hf; [|destruct (_ || _) eqn:Hc].
  - unfold voiceEffect. by rewrite Hf.
  - unfold voiceEffect.
    change (filteredVoices (setEngine ?e (setVoice ?v s)))
      with (filteredVoices s).
    rewrite Hf. unfold findVoice. simpl.
    rewrite (bool_decide_eq_true_2 (Voice.id v0 = Voice.id v0)) by done.
    by destruct (negb (truthyStr (Voice.id v0)) || _).
  - unfold voiceEffect. by rewrite Hf, Hc.
Qed.


(** C3 fails on the code: after the catalog [twoVoices] is loaded (the
    effect selects Joanna and the neural engine) the user picks Ivy in the
    voice select.  The effect finds Ivy among the filtered voices and
    leaves the engine alone, so the component is in a state with the
    neural engine selected and a voice that does not support it. *)
Theorem voice_change_keeps_neural lc :
  ∃ w, reachable lc w
       ∧ voice (st w) = lit "Ivy" ∧ engine (st w) = lit "neural"
       ∧ (∀ v, v ∈ voices (st w) → Voice.id v = voice (st w) →
               supportsNeural v = false)
       ∧ ¬ engineValid (st w).
Proof.
  set (w1 := mkWorld (voiceEffect (exec (load lc twoVoices) (st start)))
                     false (inflight start)).
  set (w2 := mkWorld (rerender (st w1) (setVoice (Voice.id ivy) (st w1)))
                     (loading w1) (inflight w1)).
  assert (∀ v, v ∈ voices (st w2) → Voice.id v = voice (st w2) →
               supportsNeural v = false) as Hno.
  { intros v Hin Hid. change (voices (st w2)) with [fallbackVoice; ivy] in Hin.
    apply elem_of_cons in Hin as [-> | Hin]; [discriminate Hid|].
    by apply list_elem_of_singleton in Hin as ->. }
  exists w2. split_and!; [|done|done|done|].
  - eapply rtc_l; [by apply (step_load lc twoVoices start)|].
    eapply rtc_l; [|apply rtc_refl].
    apply (step_voice lc ivy w1).
    change (filteredVoices (st w1)) with [fallbackVoice; ivy].
    apply elem_of_cons. right. left.
  - intros Hvalid. destruct Hvalid as (v & Hfind & Hsup); [done|].
    apply findVoice_Some in Hfind as [Hin Hid].
    specialize (Hno v Hin Hid). congruence.
Qed.

(** ** The scenarios of the design notes, evaluated *)

(** Scenario A: a catalog of Joanna alone gives en-US, Joanna, neural. *)
Example scenario_A lc :
  let o := Normal (mkResponse true 200
                     (Normal (VoicesBody.mk (Some [fallbackVoice])))) in
  let s := voiceEffect (exec (load lc o) initial) in
  lang s = lit "en-US" ∧ voice s = lit "Joanna" ∧ engine s = lit "neural".
Proof. by split_and!. Qed.

(** Scenario B: after a failed load, entering a text opens the gate. *)
Example scenario_B lc :
  let s := voiceEffect
             (exec (load lc (Throw (Error (lit "Failed to fetch")))) initial) in
  truthy (canGo s) = false
  ∧ truthy (canGo (setText (lit "Hello") s)) = true.
Proof. by split. Qed.

(** Scenario C: text ["Hello"], voice Joanna and the empty engine. *)
Example scenario_C :
  let s := setText (lit "Hello") (setVoice (lit "Joanna") initial) in
  let o := Normal (mkResponse true 200
                     (Normal (SynthBody.mk (Some (lit "https://x/a.mp3"))
                                           None))) in
  let s' := exec (synthSettled (closureOf s) 1700000000000 o) (synth s).1 in
  (body <$> (synth s).2)
  = Some ({[ "text" := lit "Hello"; "voice" := lit "Joanna" ]})
  ∧ audioUrl s' = lit "https://x/a.mp3"
  ∧ history s' = [HistoryEntry.mk (lit "https://x/a.mp3") (lit "Joanna")
                                  1700000000000 [] []]
  ∧ busy s' = false.
Proof. by split_and!. Qed.

(** A JSON body without [voices] is read as the empty catalog (line 36):
    the [catch] branch is not taken and nothing can be selected. *)
Example load_body_without_voices lc :
  let o := Normal (mkResponse true 200 (Normal (VoicesBody.mk None))) in
  let s := voiceEffect (exec (load lc o) initial) in
  voices s = [] ∧ languages s = [] ∧ lang s = [] ∧ voice s = []
  ∧ error s = [].
Proof. by split_and!. Qed.

(** The languages of a catalog: one per code, the name of the last voice
    of a code, sorted by name; the default is the first with an [en-]
    code. *)
Example deriveLanguages_example :
  let v id code name := Voice.mk (lit id) (lit code) (lit name) None None in
  let arr := [v "Lucia" "es-ES" "Spanish"; v "Joanna" "en-US" "English";
              v "Amy" "en-GB" "British English";
              v "Matthew" "en-US" "US English"] in
  let langs := deriveLanguages compareUnits arr in
  langs = [Language.mk (lit "en-GB") (lit "British English");
           Language.mk (lit "es-ES") (lit "Spanish");
           Language.mk (lit "en-US") (lit "US English")]
  ∧ defaultLang langs = lit "en-GB".
Proof. by split. Qed.

(** The trimmed text of a line of blanks, tabs and no-break spaces is
    empty; inner white space is kept. *)
Example trim_examples :
  trim [32; 9; 160; 10] = [] ∧ trim (lit "  a b  ") = lit "a b".
Proof. by split. Qed.

(** ** The theorems at concrete inputs *)

Lemma load_fallback_witness :
  let o : fetched VoicesBody.t := Normal (mkResponse false 503 (Throw (Error []))) in
  let s' := exec (load (λ _ _, 0%Z) o) initial in
  loadFails o = true
  ∧ error s' = lit "API not configured in this demo page."
  ∧ voices s' = [Voice.mk (lit "Joanna") (lit "en-US") (lit "US English")
                          None (Some [lit "standard"; lit "neural"])]
  ∧ languages s' = [Language.mk (lit "en-US") (lit "US English")]
  ∧ lang s' = lit "en-US" ∧ voice s' = lit "Joanna"
  ∧ voiceEffect s' = s'.
Proof.
  split; [reflexivity|].
  apply (load_fallback (λ _ _, 0%Z)
           (Normal (mkResponse false 503 (Throw (Error [])))) initial).
  reflexivity.
Defined.

Lemma payload_engine_key_witness :
  let s := setText (lit "Hello") (setEngine (lit "neural") joannaSelected) in
  let r := mkRequest (lit "/synthesize") (payload (closureOf s)) in
  body r !! "text" = Some (text s) ∧ body r !! "voice" = Some (voice s)
  ∧ (engine s = [] →
     dom (body r) = ({["text"; "voice"]} : gset string)
     ∧ body r !! "engine" = None)
  ∧ (engine s ≠ [] →
     dom (body r) = ({["text"; "voice"; "engine"]} : gset string)
     ∧ body r !! "engine" = Some (engine s))
  ∧ body r !! "engine" ≠ Some [].
Proof.
  intros s r.
  apply (payload_engine_key s (setAudioUrl [] (setError [] (setBusy true s))) r).
  reflexivity.
Defined.

Lemma filteredVoices_without_lang_witness :
  let s := setVoices [celine; fallbackVoice] initial in
  filteredVoices s = voices s
  ∧ (∀ v0 rest,
       voices s = v0 :: rest →
       voice s = [] ∨ findVoice (voice s) (voices s) = None →
       voice (voiceEffect s) = Voice.id v0
       ∧ engine (voiceEffect s)
         = (if supportsNeural v0 then lit "neural" else [])).
Proof.
  apply (filteredVoices_without_lang (setVoices [celine; fallbackVoice] initial)).
  reflexivity.
Defined.

Lemma submit_at_limit_witness :
  let s := setText longText joannaSelected in
  truthy (canGo s) = true
  ∧ ∃ s', synth s = (s', Some (mkRequest (lit "/synthesize")
                                         (payload (closureOf s)))).
Proof.
  apply (proj1 (submit_at_limit (setText longText joannaSelected))).
  - reflexivity.
  - discriminate.
  - apply length_replicate.
  - exists 97. split; [|reflexivity]. apply elem_of_replicate. by split.
Defined.

(** * Further properties of the code *)

(** ** The language list derived from the catalog (lines 39-48) *)

Lemma map_set_keys (k v : jsstring) (m : list (jsstring * jsstring)) :
  (map_set k v m).*1 = if decide (k ∈ m.*1) then m.*1 else m.*1 ++ [k].
Proof.
  induction m as [|[k' v'] m IH].
  - destruct (decide (k ∈ _)) as [Hin|_]; [|done].
    by apply not_elem_of_nil in Hin.
  - cbn [map_set]. destruct (decide (k' = k)) as [->|Hne].
    + destruct (decide (k ∈ ((k, v') :: m).*1)) as [_|Hnin]; [done|].
      exfalso. apply Hnin. left.
    + rewrite fmap_cons, IH. cbn [fst].
      destruct (decide (k ∈ m.*1)) as [Hin|Hnin];
        destruct (decide (k ∈ ((k', v') :: m).*1)) as [Hin'|Hnin'];
        try done.
      * exfalso. apply Hnin'. by right.
      * apply elem_of_cons in Hin' as [->|Hin']; done.
Qed.

Lemma map_set_NoDup (k v : jsstring) (m : list (jsstring * jsstring)) :
  NoDup m.*1 → NoDup (map_set k v m).*1.
Proof.
  intros Hnd. rewrite map_set_keys. case_decide as Hin; [done|].
  apply NoDup_app. split_and!; [done | | apply NoDup_singleton].
  intros x Hx Hk. apply list_elem_of_singleton in Hk as ->. done.
Qed.

Lemma map_set_elem_of (k v : jsstring) (m : list (jsstring * jsstring))
    (k' v' : jsstring) :
  NoDup m.*1 →
  (k', v') ∈ map_set k v m
  ↔ (k' = k ∧ v' = v) ∨ (k' ≠ k ∧ (k', v') ∈ m).
Proof.
  induction m as [|[k0 v0] m IH]; simpl; intros Hnd.
  - rewrite list_elem_of_singleton. split.
    + intros [= -> ->]. by left.
    + intros [[-> ->]|[_ Hin]]; [done | by apply not_elem_of_nil in Hin].
  - apply NoDup_cons in Hnd as [Hk0 Hnd].
    destruct (decide (k0 = k)) as [->|Hne].
    + rewrite !elem_of_cons. split.
      * intros [[= -> ->]|Hin]; [by left|]. right.
        split; [|by right]. intros ->. apply Hk0.
        apply list_elem_of_fmap. by exists (k, v').
      * intros [[-> ->]|[Hne [[= ? ?]|Hin]]]; [by left | done | by right].
    + rewrite !elem_of_cons, (IH Hnd). split.
      * intros [[= -> ->]|[[-> ->]|[Hne' Hin]]].
        -- right. split; [done | by left].
        -- by left.
        -- right. split; [done | by right].
      * intros [[-> ->]|[Hne' [[= -> ->]|Hin]]].
        -- right. by left.
        -- by left.
        -- right. right. by split.
Qed.

Lemma languageMap_snoc (arr : list Voice.t) (x : Voice.t) :
  languageMap (arr ++ [x])
  = if negb (truthyStr (Voice.languageCode x)) then languageMap arr
    else map_set (Voice.languageCode x)
                 (js_or (Some (Voice.languageName x)) (Voice.languageCode x))
                 (languageMap arr).
Proof. unfold languageMap. by rewrite foldl_app. Qed.

Lemma languageMap_NoDup (arr : list Voice.t) : NoDup (languageMap arr).*1.
Proof.
  induction arr as [|x arr IH] using rev_ind; [apply NoDup_nil_2|].
  rewrite languageMap_snoc. destruct (negb _); [done|].
  by apply map_set_NoDup.
Qed.

(** The entry of a code is made by the last voice of that code. *)
Lemma languageMap_elem_of (arr : list Voice.t) (k n : jsstring) :
  (k, n) ∈ languageMap arr
  ↔ k ≠ []
    ∧ ∃ v, last (filter (λ v, Voice.languageCode v = k) arr) = Some v
           ∧ n = js_or (Some (Voice.languageName v)) k.
Proof.
  induction arr as [|x arr IH] using rev_ind.
  - split; [intros H; by apply not_elem_of_nil in H|].
    by intros (_ & v & Hl & _).
  - rewrite languageMap_snoc, filter_app.
    destruct (truthyStr (Voice.languageCode x)) eqn:Hx; simpl.
    + apply truthyStr_true in Hx.
      rewrite map_set_elem_of by apply languageMap_NoDup.
      rewrite filter_cons, filter_nil.
      destruct (decide (Voice.languageCode x = k)) as [<-|Hne].
      * rewrite last_snoc. split.
        -- intros [[_ ->]|[Hne _]]; [|done]. split; [done|]. by exists x.
        -- intros (_ & v & [= <-] & ->). by left.
      * rewrite app_nil_r, IH. split.
        -- by intros [[-> _]|[_ H]].
        -- intros H. right. split; [done|]. exact H.
    + apply truthyStr_false in Hx.
      rewrite filter_cons, filter_nil, IH.
      destruct (decide (Voice.languageCode x = k)) as [<-|Hne].
      * split; by intros [Hk _].
      * by rewrite app_nil_r.
Qed.

Lemma sort_insert_Permutation {A} (cmp : A → A → Z) (x : A) (l : list A) :
  sort_insert cmp x l ≡ₚ x :: l.
Proof.
  induction l as [|y l IH]; simpl; [done|].
  destruct (cmp x y <=? 0)%Z; [done|]. by rewrite IH, Permutation_swap.
Qed.

Lemma sort_Permutation {A} (cmp : A → A → Z) (l : list A) :
  sort cmp l ≡ₚ l.
Proof.
  induction l as [|x l IH]; simpl; [done|].
  by rewrite sort_insert_Permutation, IH.
Qed.

Lemma deriveLanguages_Permutation lc (arr : list Voice.t) :
  deriveLanguages lc arr
  ≡ₚ (λ '(code, name), Language.mk code name) <$> languageMap arr.
Proof. apply sort_Permutation. Qed.

Lemma deriveLanguages_elem_of lc (arr : list Voice.t) (l : Language.t) :
  l ∈ deriveLanguages lc arr
  ↔ Language.code l ≠ []
    ∧ ∃ v, last (filter (λ v, Voice.languageCode v = Language.code l) arr)
           = Some v
           ∧ Language.name l
             = js_or (Some (Voice.languageName v)) (Language.code l).
Proof.
  rewrite deriveLanguages_Permutation, list_elem_of_fmap.
  rewrite <- languageMap_elem_of. destruct l as [k n]. simpl. split.
  - by intros ([k' n'] & [= -> ->] & Hin).
  - intros Hin. by exists (k, n).
Qed.

Lemma deriveLanguages_codes_NoDup lc (arr : list Voice.t) :
  NoDup (Language.code <$> deriveLanguages lc arr).
Proof.
  rewrite deriveLanguages_Permutation, <- list_fmap_compose.
  erewrite list_fmap_ext; [apply languageMap_NoDup|]. by intros i [k n].
Qed.

Lemma last_filter_Some {A} (P : A → Prop) `{∀ x, Decision (P x)}
    (l : list A) (x : A) :
  last (filter P l) = Some x → x ∈ l ∧ P x.
Proof.
  intros Hl. apply last_Some in Hl as [l' Hl'].
  assert (x ∈ filter P l) as Hin.
  { rewrite Hl'. apply elem_of_app. right. left. }
  apply list_elem_of_filter in Hin as [? ?]. by split.
Qed.

(** X1: the language list has exactly one entry for every non-empty
    language code of the catalog; its name is the [languageName] of the
    last voice with that code, or the code when that name is empty. *)
Theorem deriveLanguages_spec lc (arr : list Voice.t) :
  NoDup (Language.code <$> deriveLanguages lc arr)
  ∧ ∀ l, l ∈ deriveLanguages lc arr
         ↔ Language.code l ≠ []
           ∧ ∃ v, last (filter (λ v, Voice.languageCode v = Language.code l)
                               arr) = Some v
                  ∧ Language.name l
                    = js_or (Some (Voice.languageName v)) (Language.code l).
Proof.
  split; [apply deriveLanguages_codes_NoDup|].
  intros l. apply deriveLanguages_elem_of.
Qed.

Lemma sort_insert_sorted {A} (cmp : A → A → Z) (x : A) (l : list A) :
  (∀ a b, (cmp a b ≤ 0 ∨ cmp b a ≤ 0)%Z) →
  (∀ a b c, (cmp a b ≤ 0 → cmp b c ≤ 0 → cmp a c ≤ 0)%Z) →
  StronglySorted (λ a b, (cmp a b ≤ 0)%Z) l →
  StronglySorted (λ a b, (cmp a b ≤ 0)%Z) (sort_insert cmp x l).
Proof.
  intros Htot Htrans. induction l as [|y l IH]; simpl; intros Hs.
  - by repeat constructor.
  - apply StronglySorted_inv in Hs as [Hs Hy].
    destruct (cmp x y <=? 0)%Z eqn:Hxy.
    + apply Z.leb_le in Hxy. constructor; [by constructor|].
      constructor; [done|]. eapply Forall_impl; [exact Hy|].
      intros z Hz. simpl in Hz. by eapply Htrans.
    + apply Z.leb_gt in Hxy. constructor; [by apply IH|].
      apply Forall_forall. intros z Hz.
      rewrite sort_insert_Permutation in Hz.
      apply elem_of_cons in Hz as [->|Hz].
      * destruct (Htot x y); [lia | done].
      * rewrite Forall_forall in Hy. by apply Hy.
Qed.

Lemma sort_sorted {A} (cmp : A → A → Z) (l : list A) :
  (∀ a b, (cmp a b ≤ 0 ∨ cmp b a ≤ 0)%Z) →
  (∀ a b c, (cmp a b ≤ 0 → cmp b c ≤ 0 → cmp a c ≤ 0)%Z) →
  StronglySorted (λ a b, (cmp a b ≤ 0)%Z) (sort cmp l).
Proof.
  intros Htot Htrans. induction l as [|x l IH]; simpl; [constructor|].
  by apply sort_insert_sorted.
Qed.

(** X2: when [localeCompare] is a total preorder, the language list is in
    ascending order of name: no language comes after one whose name
    compares greater. *)
Theorem deriveLanguages_sorted lc (arr : list Voice.t) :
  (∀ a b, (lc a b ≤ 0 ∨ lc b a ≤ 0)%Z) →
  (∀ a b c, (lc a b ≤ 0 → lc b c ≤ 0 → lc a c ≤ 0)%Z) →
  StronglySorted
    (λ a b, (lc (Language.name a) (Language.name b) ≤ 0)%Z)
    (deriveLanguages lc arr).
Proof.
  intros Htot Htrans. unfold deriveLanguages.
  apply (sort_sorted (λ a b, lc (Language.name a) (Language.name b))).
  - intros a b. apply Htot.
  - intros a b c. apply Htrans.
Qed.

Lemma compareUnits_total (a b : jsstring) :
  (compareUnits a b ≤ 0 ∨ compareUnits b a ≤ 0)%Z.
Proof.
  revert b. induction a as [|x a IH]; intros [|y b]; simpl;
    [lia | lia | lia |].
  destruct (N.ltb_spec x y), (N.ltb_spec y x); try lia. apply IH.
Qed.

Lemma compareUnits_trans (a b c : jsstring) :
  (compareUnits a b ≤ 0 → compareUnits b c ≤ 0 → compareUnits a c ≤ 0)%Z.
Proof.
  revert b c. induction a as [|x a IH]; intros [|y b] [|z c]; simpl;
    try lia.
  destruct (N.ltb_spec x y), (N.ltb_spec y x), (N.ltb_spec y z),
    (N.ltb_spec z y), (N.ltb_spec x z), (N.ltb_spec z x); try lia.
  apply IH.
Qed.

(** ** The default language (lines 47-48) *)

Lemma js_or_nil (c : jsstring) : js_or (Some c) [] = c.
Proof. by destruct c. Qed.

Lemma defaultLang_cases (langs : list Language.t) :
  (∃ l, l ∈ langs ∧ startsWith (lit "en-") (Language.code l) = true
        ∧ defaultLang langs = Language.code l)
  ∨ ((∀ l, l ∈ langs → startsWith (lit "en-") (Language.code l) = false)
     ∧ defaultLang langs = from_option Language.code [] (head langs)).
Proof.
  unfold defaultLang.
  destruct (find _ langs) as [l|] eqn:Hf.
  - left. apply find_some in Hf as [Hin Hen]. exists l.
    split_and!; [by apply list_elem_of_In | done | apply js_or_nil].
  - right. split.
    + intros l Hin. apply (find_none _ _ Hf). by apply list_elem_of_In.
    + destruct langs as [|l0 langs]; simpl; [done | apply js_or_nil].
Qed.

Lemma defaultLang_option (langs : list Language.t) :
  defaultLang langs = [] ∨ defaultLang langs ∈ Language.code <$> langs.
Proof.
  destruct (defaultLang_cases langs) as [(l & Hin & _ & ->)|[_ ->]].
  - right. apply list_elem_of_fmap. by exists l.
  - destruct langs as [|l0 langs]; simpl; [by left|]. right. left.
Qed.

(** X3: the default language is the code of a language of the list, or
    empty; it has the prefix [en-] as soon as some language has; with no
    such language it is the code of the first language; and it is not empty
    when the list is not empty and has no empty code. *)
Theorem defaultLang_spec (langs : list Language.t) :
  (defaultLang langs = [] ∨ defaultLang langs ∈ Language.code <$> langs)
  ∧ ((∃ l, l ∈ langs ∧ startsWith (lit "en-") (Language.code l) = true) →
     startsWith (lit "en-") (defaultLang langs) = true)
  ∧ ((∀ l, l ∈ langs → startsWith (lit "en-") (Language.code l) = false) →
     defaultLang langs = from_option Language.code [] (head langs))
  ∧ (langs ≠ [] → (∀ l, l ∈ langs → Language.code l ≠ []) →
     defaultLang langs ≠ []).
Proof.
  split_and!.
  - apply defaultLang_option.
  - intros (l & Hin & Hen).
    destruct (defaultLang_cases langs) as [(l' & _ & Hen' & ->)|[Hno _]];
      [done|].
    specialize (Hno l Hin). congruence.
  - intros Hno.
    destruct (defaultLang_cases langs) as [(l' & Hin & Hen' & _)|[_ H]];
      [|done].
    specialize (Hno l' Hin). congruence.
  - intros Hne Hcodes.
    destruct (defaultLang_cases langs) as [(l & Hin & _ & ->)|[_ ->]].
    + by apply Hcodes.
    + destruct langs as [|l0 langs]; [done|]. simpl. apply Hcodes. left.
Qed.

(** ** The default effect (lines 68-73) *)

Lemma findVoice_is_Some (id : jsstring) (vs : list Voice.t) :
  is_Some (findVoice id vs) ↔ ∃ v, v ∈ vs ∧ Voice.id v = id.
Proof.
  split.
  - intros [v Hv]. exists v. by apply findVoice_Some.
  - intros (v & Hin & Hid). unfold findVoice.
    induction vs as [|v0 vs IH]; [by apply not_elem_of_nil in Hin|].
    simpl. case_bool_decide as Hv0; [by eexists|].
    apply elem_of_cons in Hin as [->|Hin]; [done | by apply IH].
Qed.

Lemma filteredVoices_ext (s s' : State) :
  voices s' = voices s → lang s' = lang s →
  filteredVoices s' = filteredVoices s.
Proof. unfold filteredVoices. by intros -> ->. Qed.

Lemma voiceEffect_filteredVoices (s : State) :
  filteredVoices (voiceEffect s) = filteredVoices s.
Proof.
  destruct (voiceEffect_frame s) as (Hv & _ & Hl & _).
  by apply filteredVoices_ext.
Qed.

Lemma voiceEffect_selects (s : State) :
  filteredVoices s ≠ [] →
  ∃ v, v ∈ filteredVoices s ∧ Voice.id v = voice (voiceEffect s).
Proof.
  intros Hne. unfold voiceEffect.
  destruct (filteredVoices s) as [|v0 vs] eqn:Hf; [done|].
  destruct (negb (truthyStr (voice s)) || _) eqn:Hc.
  - exists v0. split; [left | done].
  - apply orb_false_iff in Hc as [_ Hfound].
    apply negb_false_iff, bool_decide_eq_true in Hfound as [v Hv].
    apply findVoice_Some in Hv as [Hin Hid]. by exists v.
Qed.

Lemma voiceEffect_fixed (s : State) :
  filteredVoices s = []
  ∨ (voice s ≠ [] ∧ ∃ v, v ∈ filteredVoices s ∧ Voice.id v = voice s) →
  voiceEffect s = s.
Proof.
  unfold voiceEffect. intros [->|[Hv Hex]]; [done|].
  destruct (filteredVoices s) as [|v0 vs] eqn:Hf; [done|].
  apply truthyStr_true in Hv. rewrite Hv. simpl.
  apply findVoice_is_Some in Hex.
  by rewrite bool_decide_eq_true_2.
Qed.

Lemma voiceEffect_engineOk (s : State) :
  engineOk (engine s) → engineOk (engine (voiceEffect s)).
Proof.
  intros Hok. unfold voiceEffect.
  destruct (filteredVoices s) as [|v0 vs]; [done|].
  destruct (_ || _); [|done]. simpl.
  destruct (supportsNeural v0); [by right | by left].
Qed.

(** X4: the effect does nothing when the voice select has no option, and
    nothing when the selected voice is not empty and is one of the options;
    after the effect, whenever the select has options the selected voice is
    one of them. *)
Theorem voiceEffect_post (s : State) :
  (voiceOptions s = [] → voiceEffect s = s)
  ∧ (voice s ≠ [] → voice s ∈ voiceOptions s → voiceEffect s = s)
  ∧ (voiceOptions s ≠ [] →
     voice (voiceEffect s) ∈ voiceOptions (voiceEffect s)).
Proof.
  unfold voiceOptions. split_and!.
  - intros Hnil. apply fmap_nil_inv in Hnil.
    apply voiceEffect_fixed. by left.
  - intros Hv Hin. apply list_elem_of_fmap in Hin as (v & Hid & Hin).
    apply voiceEffect_fixed. right. split; [done|]. by exists v.
  - intros Hne. rewrite voiceEffect_filteredVoices.
    destruct (voiceEffect_selects s) as (v & Hin & Hid).
    { intros Hnil. by rewrite Hnil in Hne. }
    apply list_elem_of_fmap. by exists v.
Qed.

(** X5: when the effect picks a voice (no voice is selected, or the
    selected one is not an option), it picks the first option, and the
    engine it sets is the one the engine select then shows: neural exactly
    when the neural option is rendered for the new voice. *)
Theorem voiceEffect_engine_offered (s : State) (v0 : Voice.t)
    (rest : list Voice.t) :
  filteredVoices s = v0 :: rest →
  voice s = [] ∨ voice s ∉ voiceOptions s →
  let s' := voiceEffect s in
  voice s' = Voice.id v0
  ∧ neuralOffered s' = supportsNeural v0
  ∧ engine s' = (if neuralOffered s' then lit "neural" else [])
  ∧ engine s' ∈ engineOptions s'.
Proof.
  intros Hf Hsel s'.
  assert (s' = setEngine (if supportsNeural v0 then lit "neural" else [])
                         (setVoice (Voice.id v0) s)) as Hs'.
  { unfold s', voiceEffect. rewrite Hf.
    destruct Hsel as [->|Hnot]; [done|].
    rewrite (bool_decide_eq_false_2 (is_Some _)); [by rewrite orb_true_r|].
    intros Hsome. apply findVoice_is_Some in Hsome as (v & Hin & Hid).
    apply Hnot. unfold voiceOptions. rewrite Hf.
    apply list_elem_of_fmap. by exists v. }
  assert (neuralOffered s' = supportsNeural v0) as Hoff.
  { unfold neuralOffered. rewrite Hs'.
    change (filteredVoices (setEngine ?e (setVoice ?v s)))
      with (filteredVoices s).
    rewrite Hf. unfold findVoice. simpl.
    by rewrite (bool_decide_eq_true_2 (Voice.id v0 = Voice.id v0)). }
  split_and!; [by rewrite Hs' | done | by rewrite Hoff, Hs' |].
  unfold engineOptions. rewrite Hoff, Hs'. simpl.
  destruct (supportsNeural v0); [right; left | left].
Qed.

(** ** Invariants of the selection in the transition system *)

Lemma synth_frame (s : State) :
  let s' := (synth s).1 in
  voices s' = voices s ∧ languages s' = languages s ∧ lang s' = lang s
  ∧ voice s' = voice s ∧ engine s' = engine s ∧ text s' = text s
  ∧ history s' = history s.
Proof. unfold synth. by destruct (truthy (canGo s)). Qed.

Lemma synthSettled_frame (c : Closure) (now : N) (o : fetched SynthBody.t)
    (s : State) :
  let s' := exec (synthSettled c now o) s in
  voices s' = voices s ∧ languages s' = languages s ∧ lang s' = lang s
  ∧ voice s' = voice s ∧ engine s' = engine s ∧ text s' = text s.
Proof.
  simpl. rewrite synthSettled_exec.
  destruct o as [r|e]; [|done]. destruct (json r) as [d|e]; [|done].
  by destruct (_ && _).
Qed.

Lemma catalogInv_ext (s s' : State) :
  voices s' = voices s → languages s' = languages s → lang s' = lang s →
  catalogInv s → catalogInv s'.
Proof. unfold catalogInv, languageOptions. by intros -> -> ->. Qed.

Lemma selectionInv_ext (s s' : State) :
  voices s' = voices s → lang s' = lang s → voice s' = voice s →
  selectionInv s → selectionInv s'.
Proof.
  unfold selectionInv. intros Hv Hl ->.
  by rewrite (filteredVoices_ext s s' Hv Hl).
Qed.

Lemma voiceEffect_selectionInv (s : State) : selectionInv (voiceEffect s).
Proof.
  unfold selectionInv. rewrite voiceEffect_filteredVoices.
  apply voiceEffect_selects.
Qed.

Lemma voiceEffect_catalogInv (s : State) :
  catalogInv s → catalogInv (voiceEffect s).
Proof.
  destruct (voiceEffect_frame s) as (Hv & Hls & Hl & _).
  by apply catalogInv_ext.
Qed.

Lemma rerender_selectionInv (old s : State) :
  selectionInv s → selectionInv (rerender old s).
Proof.
  unfold rerender. case_decide; [done|]. intros _.
  apply voiceEffect_selectionInv.
Qed.

(** Whatever the outcome, [load] leaves a catalog whose languages all have
    voices. *)
Lemma load_catalogInv lc (o : fetched VoicesBody.t) (s : State) :
  catalogInv (exec (load lc o) s).
Proof.
  rewrite load_exec.
  assert (catalogInv
            (setVoice (lit "Joanna")
               (setLang (lit "en-US")
                  (setLanguages [fallbackLanguage]
                     (setVoices [fallbackVoice]
                        (setError
                           (lit "API not configured in this demo page.")
                           s)))))) as Hfb.
  { split; simpl.
    - intros l Hl. apply list_elem_of_singleton in Hl as ->.
      split; [done|]. exists fallbackVoice. split; [left | done].
    - right. left. }
  destruct o as [[[] status [d|e]]|e]; try exact Hfb.
  split; simpl.
  - intros l Hl. apply deriveLanguages_elem_of in Hl as (Hc & v & Hlast & _).
    split; [done|]. apply last_filter_Some in Hlast as [Hin Hcode].
    by exists v.
  - apply defaultLang_option.
Qed.

Lemma catalogInv_filteredVoices (s : State) :
  catalogInv s → lang s ≠ [] → filteredVoices s ≠ [].
Proof.
  intros [Hlangs [Hnil|Hin]] Hl; [done|].
  apply list_elem_of_fmap in Hin as (l & Hcode & Hin).
  destruct (Hlangs l Hin) as (_ & v & Hv & Hvc).
  assert (v ∈ filteredVoices s) as Hfv.
  { apply filteredVoices_lang; [done|]. split; [done | congruence]. }
  intros Hnil. rewrite Hnil in Hfv. by apply not_elem_of_nil in Hfv.
Qed.

Lemma start_uiInv : uiInv start.
Proof.
  split_and!.
  - split; [intros l Hl; by apply not_elem_of_nil in Hl | by left].
  - by intros H.
  - split_and!; [by left | constructor | constructor].
  - done.
Qed.

Lemma step_uiInv lc (w w' : World) : step lc w w' → uiInv w → uiInv w'.
Proof.
  intros Hstep (Hcat & Hsel & (Heng & Hfl & Hhist) & Hload).
  destruct Hstep as [o w Hl|l w Hin|v w Hin|w|v w Hf Hsup|t w|w|w|t w|w
                    |c now o w before after Hfl'].
  - (* load *)
    split_and!; simpl.
    + apply voiceEffect_catalogInv, load_catalogInv.
    + apply voiceEffect_selectionInv.
    + destruct (voiceEffect_frame (exec (load lc o) (st w)))
        as (_ & _ & _ & _ & _ & _ & _ & Hh).
      destruct (load_frame lc o (st w)) as (_ & _ & He & _ & Hh').
      split_and!; simpl.
      * apply voiceEffect_engineOk. by rewrite He.
      * done.
      * by rewrite Hh, Hh'.
    + done.
  - (* language select *)
    destruct (rerender_frame (st w) (setLang (Language.code l) (st w)))
      as (Hv & Hls & Hl & _ & _ & _ & _ & Hh). simpl in Hv, Hls, Hl, Hh.
    split_and!; simpl.
    + apply (catalogInv_ext (setLang (Language.code l) (st w))); try done.
      destruct Hcat as [Hlangs _]. split; [done|]. right.
      apply list_elem_of_fmap. by exists l.
    + unfold rerender. case_decide as Hsame; [|apply voiceEffect_selectionInv].
      destruct Hsame as [Hsame _]. simpl in Hsame.
      by apply (selectionInv_ext (st w)).
    + split_and!; simpl; [|done|by rewrite Hh].
      unfold rerender. case_decide; [done|]. by apply voiceEffect_engineOk.
    + intros Hl'. destruct (Hload Hl') as (_ & Hnil & _).
      rewrite Hnil in Hin. by apply not_elem_of_nil in Hin.
  - (* voice select *)
    destruct (rerender_frame (st w) (setVoice (Voice.id v) (st w)))
      as (Hv & Hls & Hl & _ & _ & _ & _ & Hh). simpl in Hv, Hls, Hl, Hh.
    split_and!; simpl.
    + by apply (catalogInv_ext (st w)).
    + unfold rerender. case_decide as Hsame; [|apply voiceEffect_selectionInv].
      destruct Hsame as [_ Hsame]. simpl in Hsame.
      by apply (selectionInv_ext (st w)).
    + split_and!; simpl; [|done|by rewrite Hh].
      unfold rerender. case_decide; [done|]. by apply voiceEffect_engineOk.
    + intros Hl'. destruct (Hload Hl') as (Hnil & _ & Hlang & _).
      unfold filteredVoices in Hin. rewrite Hnil, Hlang in Hin.
      by apply not_elem_of_nil in Hin.
  - (* engine: standard *)
    split_and!; simpl; [done | done | by split_and!; [left|..] |].
    intros Hl'. by destruct (Hload Hl') as (? & ? & ? & ? & _).
  - (* engine: neural *)
    split_and!; simpl; [done | done | by split_and!; [right|..] |].
    intros Hl'. destruct (Hload Hl') as (Hnil & _ & Hlang & _).
    unfold filteredVoices in Hf. by rewrite Hnil, Hlang in Hf.
  - by split_and!.
  - by split_and!.
  - by split_and!.
  - by split_and!.
  - (* submit *)
    destruct (synth_frame (st w)) as (Hv & Hls & Hl & Hvo & He & _ & Hh).
    simpl in *. split_and!; cbn [st loading inflight].
    + by apply (catalogInv_ext (st w)).
    + by apply (selectionInv_ext (st w)).
    + split_and!; cbn [st loading inflight];
        [by rewrite He | | by rewrite Hh].
      destruct (synth (st w)).2; [|done].
      apply Forall_app. split; [done|]. by apply Forall_singleton.
    + unfold loadingInv. cbn [st loading inflight]. intros Hl'.
      destruct (Hload Hl') as (? & ? & ? & ? & ?).
      by rewrite Hv, Hls, Hl, Hvo, He.
  - (* settled *)
    destruct (synthSettled_frame c now o (st w))
      as (Hv & Hls & Hl & Hvo & He & _). simpl in *.
    rewrite Hfl' in Hfl.
    apply Forall_app in Hfl as [Hbefore Hc].
    apply Forall_cons in Hc as [Hc Hafter].
    split_and!; cbn [st loading inflight].
    + by apply (catalogInv_ext (st w)).
    + by apply (selectionInv_ext (st w)).
    + split_and!; cbn [st loading inflight];
        [by rewrite He | by apply Forall_app |].
      rewrite synthSettled_exec.
      destruct o as [r|e]; [|done]. destruct (json r) as [d|e]; [|done].
      destruct (ok r && _) eqn:Hok; [|done]. simpl.
      apply andb_true_iff in Hok as [_ Hu]. apply truthyStr_true in Hu.
      unfold pushHistory. apply Forall_take. by constructor.
    + unfold loadingInv. cbn [st loading inflight]. intros Hl'.
      destruct (Hload Hl') as (? & ? & ? & ? & ?).
      by rewrite Hv, Hls, Hl, Hvo, He.
Qed.

Lemma reachable_uiInv lc (w : World) : reachable lc w → uiInv w.
Proof.
  unfold reachable. intros Hr.
  eapply (rtc_ind_r (λ w, uiInv w)); [apply start_uiInv | | exact Hr].
  intros w1 w2 _ Hstep IH. by eapply step_uiInv.
Qed.


(** X6: in every world the component can reach, each language of the
    language select has a non-empty code and at least one voice in the
    catalog, so picking it never empties the voice select; and the selected
    language is none or one of the options. *)
Theorem reachable_language_options lc (w : World) :
  reachable lc w →
  (∀ l, l ∈ languages (st w) →
        Language.code l ≠ []
        ∧ (∃ v, v ∈ voices (st w)
                ∧ Voice.languageCode v = Language.code l)
        ∧ voiceOptions (setLang (Language.code l) (st w)) ≠ [])
  ∧ (lang (st w) = [] ∨ lang (st w) ∈ languageOptions (st w)).
Proof.
  intros Hr. destruct (reachable_uiInv lc w Hr) as ([Hlangs Hlang] & _).
  split; [|done]. intros l Hl. destruct (Hlangs l Hl) as (Hc & v & Hv & Hvc).
  split_and!; [done | by exists v |].
  unfold voiceOptions. intros Hnil. apply fmap_nil_inv in Hnil.
  assert (v ∈ filteredVoices (setLang (Language.code l) (st w))) as Hin.
  { by apply filteredVoices_lang. }
  rewrite Hnil in Hin. by apply not_elem_of_nil in Hin.
Qed.

(** X7: in every world the component can reach, when the voice select has
    options the selected voice is one of them; and when a language is
    selected, the selected voice is the id of a catalog voice of that
    language. *)
Theorem reachable_voice_selected lc (w : World) :
  reachable lc w →
  (voiceOptions (st w) ≠ [] → voice (st w) ∈ voiceOptions (st w))
  ∧ (lang (st w) ≠ [] →
     ∃ v, v ∈ voices (st w) ∧ Voice.id v = voice (st w)
          ∧ Voice.languageCode v = lang (st w)).
Proof.
  intros Hr. destruct (reachable_uiInv lc w Hr) as (Hcat & Hsel & _).
  split.
  - unfold voiceOptions. intros Hne.
    destruct Hsel as (v & Hin & Hid).
    { intros Hnil. by rewrite Hnil in Hne. }
    apply list_elem_of_fmap. by exists v.
  - intros Hl. destruct Hsel as (v & Hin & Hid).
    { by apply catalogInv_filteredVoices. }
    apply filteredVoices_lang in Hin as [Hin Hc]; [|done]. by exists v.
Qed.

(** X8: in every world the component can reach, the engine is the empty
    string or ["neural"], in the state, in every request in flight and in
    every clip of the history; and every clip has a non-empty url. *)
Theorem reachable_engine_values lc (w : World) :
  reachable lc w →
  (engine (st w) = [] ∨ engine (st w) = lit "neural")
  ∧ (∀ c, c ∈ inflight w → c_engine c = [] ∨ c_engine c = lit "neural")
  ∧ (∀ h, h ∈ history (st w) →
          (HistoryEntry.engine h = [] ∨ HistoryEntry.engine h = lit "neural")
          ∧ HistoryEntry.url h ≠ []).
Proof.
  intros Hr.
  destruct (reachable_uiInv lc w Hr) as (_ & _ & (He & Hfl & Hh) & _).
  rewrite Forall_forall in Hfl. rewrite Forall_forall in Hh. by split_and!.
Qed.

(** X9: the catalog is written by the load alone.  Until [load] settles
    there are no voices, no languages and no selection; once it has
    settled, no step changes the voices or the languages, and [load] does
    not settle again. *)
Theorem catalog_set_once lc :
  (∀ w, reachable lc w → loading w = true →
        voices (st w) = [] ∧ languages (st w) = [] ∧ lang (st w) = []
        ∧ voice (st w) = [] ∧ engine (st w) = [])
  ∧ (∀ w w', step lc w w' → loading w = false →
             loading w' = false ∧ voices (st w') = voices (st w)
             ∧ languages (st w') = languages (st w)).
Proof.
  split.
  - intros w Hr. by destruct (reachable_uiInv lc w Hr) as (_ & _ & _ & Hl).
  - intros w w' Hstep Hl.
    destruct Hstep as [o w Hl'|l w Hin|v w Hin|w|v w Hf Hsup|t w|w|w|t w|w
                      |c now o w before after Hfl']; cbn [st loading];
      try done.
    + congruence.
    + destruct (rerender_frame (st w) (setLang (Language.code l) (st w)))
        as (Hv & Hls & _). by rewrite Hv, Hls.
    + destruct (rerender_frame (st w) (setVoice (Voice.id v) (st w)))
        as (Hv & Hls & _). by rewrite Hv, Hls.
    + by destruct (synth_frame (st w)) as (-> & -> & _).
    + by destruct (synthSettled_frame c now o (st w)) as (-> & -> & _).
Qed.

(** X10: in every world the component can reach with a voice selected,
    the default effect has nothing left to do: running it again leaves the
    state as it is. *)
Theorem reachable_effect_settled lc (w : World) :
  reachable lc w → voice (st w) ≠ [] → voiceEffect (st w) = st w.
Proof.
  intros Hr Hv. destruct (reachable_uiInv lc w Hr) as (_ & Hsel & _).
  apply voiceEffect_fixed.
  destruct (filteredVoices (st w)) as [|v0 vs] eqn:Hf; [by left|].
  right. split; [done|]. unfold selectionInv in Hsel. rewrite Hf in Hsel.
  by apply Hsel.
Qed.

(** ** The submit handler and the Generate button (lines 87-107, 175) *)

(** X11: [synth] returns at its guard, changing nothing and making no
    request, when a submission is in flight, when the text is longer than
    [MAX_CHARS], or when the text is empty or white space only; in every
    other state it makes one request to the synthesis endpoint with the
    payload of the current render, sets [busy] and clears the error and the
    previous result, and changes no other cell. *)
Theorem synth_guard (s : State) :
  (busy s = true ∨ (MAX_CHARS < length (text s))%nat
   ∨ Forall (λ c, isWhiteSpace c = true) (text s) →
   synth s = (s, None))
  ∧ (busy s = false → (length (text s) ≤ MAX_CHARS)%nat →
     (∃ c, c ∈ text s ∧ isWhiteSpace c = false) →
     synth s
     = (mkState (tab s) (voices s) (languages s) (lang s) (voice s)
                (engine s) (text s) true [] [] (history s),
        Some (mkRequest (lit "/synthesize")
                        (payload (mkClosure (text s) (voice s) (lang s)
                                            (engine s)))))).
Proof.
  split.
  - intros Hno.
    assert (truthy (canGo s) = false) as Hgo.
    { apply not_true_is_false. rewrite canGo_truthy. unfold chars.
      intros (Hb & Hlen & Ht).
      destruct Hno as [Hb'|[Hover|Hws]]; [congruence | lia |].
      by apply trim_nil in Hws. }
    unfold synth. by rewrite Hgo.
  - intros Hb Hlen Hns.
    assert (truthy (canGo s) = true) as Hgo.
    { apply canGo_truthy. split_and!; [done | done | by apply trim_nonempty]. }
    unfold synth. by rewrite Hgo.
Qed.

Lemma failureMessage_truthy (e : JsError) :
  js_or (Some (message e)) (lit "Failed to synthesize") ≠ [].
Proof. unfold js_or. by destruct (message e). Qed.

(** X12: a submission that settles before any other event shows either a
    result or an error, never both and never neither.  On success (a
    success status and a body with a non-empty url) the result is that
    url, the error stays empty and the history is the new clip, with the
    voice, language and engine of the submit, in front of the old history
    cut to 6.  On any failure (a rejected [fetch] or [r.json()], a status
    that is not a success, a body without url) the result stays empty, the
    error is not empty and the history is as it was.  In each case [busy]
    ends false and the text and the selection are not touched. *)
Theorem submission_outcome (s : State) (now : N) (o : fetched SynthBody.t) :
  truthy (canGo s) = true →
  let s' := exec (synthSettled (closureOf s) now o) (synth s).1 in
  let failed := audioUrl s' = [] ∧ error s' ≠ [] ∧ history s' = history s in
  match o with
  | Throw _ => failed
  | Normal r =>
      match json r with
      | Throw _ => failed
      | Normal d =>
          if ok r && truthyStr (default [] (SynthBody.url d))
          then audioUrl s' = default [] (SynthBody.url d)
               ∧ audioUrl s' ≠ [] ∧ error s' = []
               ∧ history s'
                 = take 6 (HistoryEntry.mk (default [] (SynthBody.url d))
                                           (voice s) now (lang s) (engine s)
                           :: history s)
          else failed
      end
  end
  ∧ busy s' = false ∧ text s' = text s ∧ lang s' = lang s
  ∧ voice s' = voice s ∧ engine s' = engine s.
Proof.
  intros Hgo s' failed. unfold failed, s', synth. rewrite Hgo. cbn [negb fst].
  rewrite synthSettled_exec.
  destruct o as [r|e].
  - destruct (json r) as [d|e].
    + destruct (ok r && _) eqn:Hok.
      * apply andb_true_iff in Hok as [_ Hu]. apply truthyStr_true in Hu.
        by split_and!.
      * split_and!; try done.
        apply truthyStr_true, serviceMessage_truthy.
    + split_and!; try done. apply failureMessage_truthy.
  - split_and!; try done. apply failureMessage_truthy.
Qed.

(** X13: the Generate button is enabled exactly when submitting makes a
    request; the [|| busy] of its [disabled] attribute adds nothing to
    [!canGo]. *)
Theorem generate_button (s : State) :
  generateDisabled s = negb (truthy (canGo s))
  ∧ (generateDisabled s = false ↔ ∃ r, (synth s).2 = Some r).
Proof.
  assert (generateDisabled s = negb (truthy (canGo s))) as Hd.
  { unfold generateDisabled. destruct (truthy (canGo s)) eqn:Hgo; [|done].
    apply canGo_truthy in Hgo as (-> & _). done. }
  split; [done|]. rewrite Hd. unfold synth.
  destruct (truthy (canGo s)); simpl.
  - split; [by eexists | done].
  - split; [done | by intros [r Hr]].
Qed.

(** ** The sample text (lines 76-85, 109) *)

Lemma sample_ok (s : State) :
  (length (sample s) ≤ MAX_CHARS)%nat ∧ trim (sample s) = sample s
  ∧ sample s ≠ [].
Proof.
  unfold sample. repeat case_decide; split_and!;
    solve [vm_compute; lia | vm_compute; reflexivity | discriminate].
Qed.

(** X14: every sample text is within [MAX_CHARS], has no white space at
    its ends and is not empty, so after "Insert sample" the gate is open
    exactly when no submission is in flight; the selection is not
    touched. *)
Theorem insertSample_submittable (s : State) :
  truthy (canGo (insertSample s)) = negb (busy s)
  ∧ canGo (insertSample s)
    = (if busy s then VBool false else VStr (sample s))
  ∧ lang (insertSample s) = lang s ∧ voice (insertSample s) = voice s
  ∧ engine (insertSample s) = engine s.
Proof.
  destruct (sample_ok s) as (Hlen & Htrim & Hne).
  assert (canGo (insertSample s)
          = (if busy s then VBool false else VStr (sample s))) as Hc.
  { unfold canGo, over, chars, insertSample. cbn [busy text setText].
    destruct (busy s); [done|].
    rewrite bool_decide_eq_false_2 by lia. cbn [negb js_and truthy].
    by rewrite Htrim. }
  split_and!; try done. rewrite Hc.
  destruct (busy s); [done|]. by apply truthyStr_true.
Qed.

(** ** The loader's success path (lines 33-48) with the default effect *)

Lemma defaultLang_nonempty (langs : list Language.t) :
  langs ≠ [] → (∀ l, l ∈ langs → Language.code l ≠ []) →
  defaultLang langs ≠ [].
Proof.
  intros Hne Hcodes.
  destruct (defaultLang_cases langs) as [(l & Hin & _ & ->)|[_ ->]].
  - by apply Hcodes.
  - destruct langs as [|l0 langs]; [done|]. simpl. apply Hcodes. left.
Qed.

Lemma deriveLanguages_nonempty lc (arr : list Voice.t) (v : Voice.t) :
  v ∈ arr → Voice.languageCode v ≠ [] → deriveLanguages lc arr ≠ [].
Proof.
  intros Hin Hc.
  destruct (last (filter (λ v', Voice.languageCode v' = Voice.languageCode v)
                         arr)) as [v'|] eqn:Hlast.
  - assert (Language.mk (Voice.languageCode v)
              (js_or (Some (Voice.languageName v')) (Voice.languageCode v))
            ∈ deriveLanguages lc arr) as Hl.
    { apply deriveLanguages_elem_of. simpl. split; [done|]. by exists v'. }
    intros Hnil. rewrite Hnil in Hl. by apply not_elem_of_nil in Hl.
  - apply last_None in Hlast.
    assert (v ∈ filter (λ v', Voice.languageCode v' = Voice.languageCode v)
                       arr) as Hf by (by apply list_elem_of_filter).
    rewrite Hlast in Hf. by apply not_elem_of_nil in Hf.
Qed.

(** X15: when the service answers with a catalog in which some voice has a
    language code, then after [load] and the default effect, whatever the
    state before, a language of the list is selected and the selected
    voice is a catalog voice of that language; the error, the text and the
    history are as before. *)
Theorem load_success_selects lc (status : N) (d : VoicesBody.t) (s : State) :
  (∃ v, v ∈ default [] (VoicesBody.voices d) ∧ Voice.languageCode v ≠ []) →
  let o := Normal (mkResponse true status (Normal d)) in
  let s' := voiceEffect (exec (load lc o) s) in
  voices s' = default [] (VoicesBody.voices d)
  ∧ lang s' ≠ [] ∧ lang s' ∈ languageOptions s'
  ∧ (∃ v, v ∈ voices s' ∧ Voice.id v = voice s'
          ∧ Voice.languageCode v = lang s')
  ∧ error s' = error s ∧ text s' = text s ∧ history s' = history s.
Proof.
  intros (v & Hin & Hc) o s'.
  set (s1 := exec (load lc o) s) in *. subst s'.
  assert (catalogInv s1) as Hcat by apply load_catalogInv.
  assert (lang s1 ≠ []) as Hl1.
  { unfold s1. rewrite load_exec. simpl. apply defaultLang_nonempty.
    - by eapply deriveLanguages_nonempty.
    - intros l Hl. by apply deriveLanguages_elem_of in Hl as [? _]. }
  destruct (voiceEffect_frame s1)
    as (Hv & Hls & Hl & Ht & _ & He & _ & Hh).
  assert (catalogInv (voiceEffect s1)) as Hcat'
    by (by apply voiceEffect_catalogInv).
  assert (lang (voiceEffect s1) ≠ []) as Hl' by (by rewrite Hl).
  split_and!.
  - rewrite Hv. unfold s1. by rewrite load_exec.
  - done.
  - by destruct Hcat' as [_ [?|?]].
  - destruct (voiceEffect_selectionInv s1) as (v' & Hin' & Hid').
    { by apply catalogInv_filteredVoices. }
    apply filteredVoices_lang in Hin' as [Hin' Hc']; [|done]. by exists v'.
  - rewrite He. unfold s1. by rewrite load_exec.
  - rewrite Ht. unfold s1. by rewrite load_exec.
  - rewrite Hh. unfold s1. by rewrite load_exec.
Qed.

(** ** The trimmed text (line 27) *)

Lemma trimStart_split (s : jsstring) :
  ∃ l, s = l ++ trimStart s ∧ Forall (λ c, isWhiteSpace c = true) l
       ∧ (∀ c, head (trimStart s) = Some c → isWhiteSpace c = false).
Proof.
  induction s as [|c s (l & Hs & Hl & Hh)]; simpl.
  - exists []. by split_and!.
  - destruct (isWhiteSpace c) eqn:Hc.
    + exists (c :: l). split_and!; [simpl; by f_equal | by constructor | done].
    + exists []. split_and!; [done | constructor |].
      intros c' [= <-]. done.
Qed.

Lemma trimEnd_split (s : jsstring) :
  ∃ r, s = trimEnd s ++ r ∧ Forall (λ c, isWhiteSpace c = true) r
       ∧ (∀ c, last (trimEnd s) = Some c → isWhiteSpace c = false).
Proof.
  unfold trimEnd. destruct (trimStart_split (reverse s)) as (l & Hs & Hl & Hh).
  exists (reverse l). split_and!.
  - rewrite <- reverse_app, <- Hs. by rewrite reverse_involutive.
  - by apply Forall_reverse.
  - intros c Hc. apply Hh. by rewrite <- last_reverse.
Qed.

(** X16: the trimmed text is the text without a run of white space at
    each end: the text is white space, the trimmed text, white space; and
    the trimmed text neither starts nor ends with a white-space
    character. *)
Theorem trim_spec (s : jsstring) :
  ∃ l r, s = l ++ trim s ++ r
         ∧ Forall (λ c, isWhiteSpace c = true) l
         ∧ Forall (λ c, isWhiteSpace c = true) r
         ∧ (∀ c, head (trim s) = Some c → isWhiteSpace c = false)
         ∧ (∀ c, last (trim s) = Some c → isWhiteSpace c = false).
Proof.
  unfold trim.
  destruct (trimStart_split s) as (l & Hs & Hl & Hh).
  destruct (trimEnd_split (trimStart s)) as (r & Ht & Hr & Hlast).
  exists l, r. split_and!; try done.
  - by rewrite <- Ht.
  - intros c Hc. apply Hh. rewrite Ht.
    destruct (trimEnd (trimStart s)); [done | exact Hc].
Qed.

(** X17: [startsWith] holds exactly when the first string is a prefix of
    the second, so the default language test of line 47 accepts the codes
    that begin with the three code units of [en-] and no others. *)
Theorem startsWith_prefix (p s : jsstring) :
  startsWith p s = true ↔ p `prefix_of` s.
Proof.
  revert s. induction p as [|a p IH]; intros s; simpl.
  - split; [intros _; apply prefix_nil | done].
  - destruct s as [|b s].
    + split; [done | intros H; by apply prefix_nil_not in H].
    + rewrite andb_true_iff, N.eqb_eq, IH. split.
      * intros [-> Hp]. by apply prefix_cons.
      * intros Hp. split; [by eapply prefix_cons_inv_1 |
                           by eapply prefix_cons_inv_2].
Qed.

(** ** The further properties at concrete inputs *)

Lemma loadedWorld_reachable : reachable compareUnits loadedWorld.
Proof.
  eapply rtc_l; [by apply (step_load compareUnits twoVoices start)|].
  apply rtc_refl.
Qed.



Lemma deriveLanguages_sorted_witness :
  StronglySorted
    (λ a b, (compareUnits (Language.name a) (Language.name b) ≤ 0)%Z)
    (deriveLanguages compareUnits [fallbackVoice; celine; ivy]).
Proof.
  apply (deriveLanguages_sorted compareUnits [fallbackVoice; celine; ivy]).
  - apply compareUnits_total.
  - apply compareUnits_trans.
Defined.

Lemma voiceEffect_engine_offered_witness :
  let s := setLang (lit "en-US") (setVoices [fallbackVoice; ivy] initial) in
  let s' := voiceEffect s in
  voice s' = Voice.id fallbackVoice
  ∧ neuralOffered s' = supportsNeural fallbackVoice
  ∧ engine s' = (if neuralOffered s' then lit "neural" else [])
  ∧ engine s' ∈ engineOptions s'.
Proof.
  apply (voiceEffect_engine_offered
           (setLang (lit "en-US") (setVoices [fallbackVoice; ivy] initial))
           fallbackVoice [ivy]).
  - reflexivity.
  - left. reflexivity.
Defined.

Lemma reachable_language_options_witness :
  (∀ l, l ∈ languages (st loadedWorld) →
        Language.code l ≠ []
        ∧ (∃ v, v ∈ voices (st loadedWorld)
                ∧ Voice.languageCode v = Language.code l)
        ∧ voiceOptions (setLang (Language.code l) (st loadedWorld)) ≠ [])
  ∧ (lang (st loadedWorld) = []
     ∨ lang (st loadedWorld) ∈ languageOptions (st loadedWorld)).
Proof.
  apply (reachable_language_options compareUnits loadedWorld).
  apply loadedWorld_reachable.
Defined.

Lemma reachable_voice_selected_witness :
  (voiceOptions (st loadedWorld) ≠ [] →
   voice (st loadedWorld) ∈ voiceOptions (st loadedWorld))
  ∧ (lang (st loadedWorld) ≠ [] →
     ∃ v, v ∈ voices (st loadedWorld) ∧ Voice.id v = voice (st loadedWorld)
          ∧ Voice.languageCode v = lang (st loadedWorld)).
Proof.
  apply (reachable_voice_selected compareUnits loadedWorld).
  apply loadedWorld_reachable.
Defined.

Lemma reachable_engine_values_witness :
  (engine (st loadedWorld) = [] ∨ engine (st loadedWorld) = lit "neural")
  ∧ (∀ c, c ∈ inflight loadedWorld →
          c_engine c = [] ∨ c_engine c = lit "neural")
  ∧ (∀ h, h ∈ history (st loadedWorld) →
          (HistoryEntry.engine h = [] ∨ HistoryEntry.engine h = lit "neural")
          ∧ HistoryEntry.url h ≠ []).
Proof.
  apply (reachable_engine_values compareUnits loadedWorld).
  apply loadedWorld_reachable.
Defined.

Lemma reachable_effect_settled_witness :
  voiceEffect (st loadedWorld) = st loadedWorld.
Proof.
  apply (reachable_effect_settled compareUnits loadedWorld).
  - apply loadedWorld_reachable.
  - discriminate.
Defined.

Lemma submission_outcome_witness :
  let s := setText (lit "Hello") joannaSelected in
  let ok200 := Normal (mkResponse true 200
                         (Normal (SynthBody.mk (Some (lit "https://x/a.mp3"))
                                               None))) in
  let s' := exec (synthSettled (closureOf s) 1700000000000 ok200) (synth s).1 in
  (audioUrl s' = lit "https://x/a.mp3" ∧ audioUrl s' ≠ [] ∧ error s' = []
   ∧ history s'
     = take 6 (HistoryEntry.mk (lit "https://x/a.mp3") (voice s)
                               1700000000000 (lang s) (engine s)
               :: history s))
  ∧ busy s' = false ∧ text s' = text s ∧ lang s' = lang s
  ∧ voice s' = voice s ∧ engine s' = engine s.
Proof.
  exact (submission_outcome
           (setText (lit "Hello") joannaSelected) 1700000000000
           (Normal (mkResponse true 200
                      (Normal (SynthBody.mk (Some (lit "https://x/a.mp3"))
                                            None))))
           eq_refl).
Defined.

Lemma load_success_selects_witness :
  let d := VoicesBody.mk (Some [celine; fallbackVoice]) in
  let o := Normal (mkResponse true 200 (Normal d)) in
  let s' := voiceEffect (exec (load compareUnits o) initial) in
  voices s' = default [] (VoicesBody.voices d)
  ∧ lang s' ≠ [] ∧ lang s' ∈ languageOptions s'
  ∧ (∃ v, v ∈ voices s' ∧ Voice.id v = voice s'
          ∧ Voice.languageCode v = lang s')
  ∧ error s' = error initial ∧ text s' = text initial
  ∧ history s' = history initial.
Proof.
  apply (load_success_selects compareUnits 200
           (VoicesBody.mk (Some [celine; fallbackVoice])) initial).
  exists celine. split; [left | discriminate].
Defined.
